(** * crystalize-group: route groups and their flattening

    A shallow embedding of [src/index.js] and the properties of its
    builder methods and of [collectRoutes].

    A [Group] instance is a mutable object reached by reference; the
    development keeps the instances in a store and every method is a
    computation over that store that either returns, throws (the store
    keeps the mutations made before the throw) or leaves the covered
    fragment of JavaScript.

    The verb shortcuts ([delete], [get], [patch], [post], [put]) are not
    embedded: each of their bodies is [return this.addHandlers(...),]
    followed by the closing brace, which is not a JavaScript statement.
    The other methods are embedded as they are written. *)

From Stdlib Require Import String Ascii List ZArith DecimalString Lia.
From stdpp Require Import base list strings.
Import ListNotations.

Local Open Scope string_scope.
Local Open Scope list_scope.
Local Set Warnings "-register-all".

(** ** Values *)

(** A reference to a [Group] instance: its index in the store. *)
Abbreviation loc := nat (only parsing).

(** The JavaScript values the development covers. Numbers are left out
    (the program never computes with a caller's number). A function is
    opaque: it carries the text [Function.prototype.toString] gives for it
    and its own properties. Objects and arrays are taken by value: no
    claim depends on the identity of a handler object. Strings are
    sequences of 8-bit characters, exact for ASCII text. *)
Inductive value : Type :=
| VUndefined
| VNull
| VBool (b : bool)
| VString (s : string)
| VFunction (source : string) (props : list (string * value))
| VObject (props : list (string * value))
| VArray (elems : list value)
| VGroup (ref : loc).

(** The state of one instance, as the constructor lays it out:
    [this.catchers], [this.middlewares.after], [this.middlewares.before],
    [this.items]. ([this.Promise] belongs to the promise library and is
    read by no method.) *)
Record Group : Type := mkGroup {
  catchers : list value;
  middlewares_after : list value;
  middlewares_before : list value;
  items : list value;
}.

(** The store: the instances made so far, in the order they were made. *)
Abbreviation heap := (list Group) (only parsing).

(** ** Errors and outcomes *)

Inductive type_error : Type :=
| NotAConstructor (what : string)   (* [new e(...)] where [e] is undefined *)
| NotAFunction (what : string)      (* [e(...)] where [e] is not callable *)
| NotIterable (what : string)       (* a spread or [for-of] over a non-iterable *)
| NullishRead (property : string).  (* [e.p] where [e] is undefined or null *)

(** Modelled from the spec: the classes behind [Group.errors], which
    index.js takes from [./invalid-catch-error] and
    [./invalid-handler-specification-error]; neither file is among the
    sources. The spec has each failure be "a distinct, identifiable kind
    carrying the offending value": [GroupError kind arg] is the instance
    [new Group.errors.<kind>(arg)]. The other three are errors of the
    language. *)
Inductive error : Type :=
| GroupError (kind : string) (arg : value)
| TypeError (cause : type_error)
| ReferenceError (identifier : string)
| Error (message : string).

(** Why a computation has no behaviour in the model. *)
Inductive stuck : Type :=
| OutOfFuel     (* the recursion went deeper than the fuel given *)
| Dangling      (* a reference that is not in the store *)
| Unsupported.  (* the step runs code of the caller or of the runtime that
                   the value model does not hold *)

Inductive outcome (A : Type) : Type :=
| Return (a : A)
| Throw (e : error)
| Stuck (why : stuck).
Arguments Return {A} a.
Arguments Throw {A} e.
Arguments Stuck {A} why.

Definition obind {A B} (o : outcome A) (k : A -> outcome B) : outcome B :=
  match o with
  | Return a => k a
  | Throw e => Throw e
  | Stuck w => Stuck w
  end.

Notation "'let?' x ':=' o 'in' k" := (obind o (fun x => k))
  (at level 10, x pattern, o at level 100, k at level 200).

(** A method is a store transformer with an outcome. *)
Definition M (A : Type) : Type := heap -> heap * outcome A.

Definition ret {A} (a : A) : M A := fun h => (h, Return a).
Definition throw {A} (e : error) : M A := fun h => (h, Throw e).
Definition lift {A} (o : outcome A) : M A := fun h => (h, o).
Definition bind {A B} (m : M A) (k : A -> M B) : M B :=
  fun h =>
    match m h with
    | (h', Return a) => k a h'
    | (h', Throw e) => (h', Throw e)
    | (h', Stuck w) => (h', Stuck w)
    end.

Notation "'let*' x ':=' m 'in' k" := (bind m (fun x => k))
  (at level 10, x pattern, m at level 100, k at level 200).
Notation "m ';;' k" := (bind m (fun _ => k))
  (at level 100, k at level 200, right associativity).

Definition load (l : loc) : M Group :=
  fun h => match h !! l with
           | Some g => (h, Return g)
           | None => (h, Stuck Dangling)
           end.

Definition modify (l : loc) (f : Group -> Group) : M unit :=
  fun h => match h !! l with
           | Some g => (<[l := f g]> h, Return tt)
           | None => (h, Stuck Dangling)
           end.

(** [new Group()] without a callback: a fresh instance with empty lists. *)
Definition alloc : M loc :=
  fun h => (h ++ [mkGroup [] [] [] []], Return (List.length h)).

(** [for (let x of l) body] *)
Fixpoint for_of {A} (l : list A) (body : A -> M unit) : M unit :=
  match l with
  | [] => ret tt
  | x :: l' => body x ;; for_of l' body
  end.

(** [l.map(f)] for a callback that may throw. *)
Fixpoint map_M {A B} (f : A -> M B) (l : list A) : M (list B) :=
  match l with
  | [] => ret []
  | x :: l' => let* y := f x in let* ys := map_M f l' in ret (y :: ys)
  end.

(** A loop that threads a local accumulator (the local array [routes]). *)
Fixpoint fold_M {A B} (f : B -> A -> M B) (acc : B) (l : list A) : M B :=
  match l with
  | [] => ret acc
  | x :: l' => let* acc' := f acc x in fold_M f acc' l'
  end.

(** ** The operators of the language the program uses *)

Definition typeof (v : value) : string :=
  match v with
  | VUndefined => "undefined"
  | VBool _ => "boolean"
  | VString _ => "string"
  | VFunction _ _ => "function"
  | VNull | VObject _ | VArray _ | VGroup _ => "object"
  end.

(** [v === "s"] for a string literal. *)
Definition is_string (v : value) (s : string) : bool :=
  match v with
  | VString s' => String.eqb s' s
  | _ => false
  end.

(** [v == null]: true of [undefined] and [null] only. *)
Definition is_nullish (v : value) : bool :=
  match v with
  | VUndefined | VNull => true
  | _ => false
  end.

(** [v instanceof Group] *)
Definition instanceof_Group (v : value) : bool :=
  match v with
  | VGroup _ => true
  | _ => false
  end.

(** Truthiness, for [item.path || ""]. *)
Definition truthy (v : value) : bool :=
  match v with
  | VUndefined | VNull | VBool false | VString "" => false
  | _ => true
  end.

(** Own properties: the first binding of a name, [undefined] when there
    is none. *)
Fixpoint lookup_prop (name : string) (props : list (string * value)) : value :=
  match props with
  | [] => VUndefined
  | (k, v) :: props' => if String.eqb k name then v else lookup_prop name props'
  end.

Fixpoint has_prop (name : string) (props : list (string * value)) : bool :=
  match props with
  | [] => false
  | (k, _) :: props' => String.eqb k name || has_prop name props'
  end.

(** [{...o, name: v}] once [o] is spread: an existing property keeps its
    place and takes the new value, a new one goes last. *)
Fixpoint set_prop (name : string) (v : value) (props : list (string * value))
  : list (string * value) :=
  match props with
  | [] => [(name, v)]
  | (k, w) :: props' =>
      if String.eqb k name then (k, v) :: props'
      else (k, w) :: set_prop name v props'
  end.

(** What a [Group] instance answers to: its own fields and the methods of
    [Group.prototype]. *)
Definition Group_property_names : list string :=
  ["Promise"; "catchers"; "middlewares"; "items";
   "addGroup"; "addHandler"; "addHandlers"; "after"; "around"; "before";
   "catch"; "collectRoutes"; "delete"; "get"; "group"; "patch"; "post"; "put"].

(** [v.name], for the names the program reads ([before], [after],
    [respondsTo], [type], [path], [group], [handlers]): none of them is a
    built-in of strings, arrays, functions or plain objects, so only own
    properties answer. Reading a field or a method off a [Group] instance
    as data is outside the value model. *)
Definition get_prop (v : value) (name : string) : outcome value :=
  match v with
  | VUndefined | VNull => Throw (TypeError (NullishRead name))
  | VObject props | VFunction _ props => Return (lookup_prop name props)
  | VGroup _ =>
      if existsb (String.eqb name) Group_property_names
      then Stuck Unsupported else Return VUndefined
  | VBool _ | VString _ | VArray _ => Return VUndefined
  end.

(** The string conversion of template literals. An object that carries
    its own [toString] or [valueOf] would run caller code. An array joins
    its elements with commas, [undefined] and [null] giving the empty
    string. *)
Definition overrides_conversion (props : list (string * value)) : bool :=
  has_prop "toString" props || has_prop "valueOf" props.

Fixpoint ToString (v : value) : outcome string :=
  match v with
  | VUndefined => Return "undefined"
  | VNull => Return "null"
  | VBool true => Return "true"
  | VBool false => Return "false"
  | VString s => Return s
  | VFunction source props =>
      if overrides_conversion props then Stuck Unsupported else Return source
  | VObject props =>
      if overrides_conversion props then Stuck Unsupported
      else Return "[object Object]"
  | VGroup _ => Return "[object Object]"
  | VArray elems =>
      (fix join (l : list value) : outcome string :=
         match l with
         | [] => Return ""
         | e :: l' =>
             let first :=
               match e with
               | VUndefined | VNull => Return ""
               | _ => ToString e
               end in
             let? s := first in
             match l' with
             | [] => Return s
             | _ :: _ => let? r := join l' in Return (s +:+ "," +:+ r)
             end
         end) elems
  end.

(** The decimal digits of an array index, for [`GroupCatcher_${ i }`]. *)
Definition index_string (i : nat) : string :=
  NilEmpty.string_of_uint (Nat.to_uint i).

(** [s.indexOf(t)] on strings: the first position of [t], [-1] if none. *)
Definition String_indexOf (s t : string) : Z :=
  match String.index 0 t s with
  | Some i => Z.of_nat i
  | None => (-1)%Z
  end.

(** [a.indexOf("/")] on arrays: the first element strictly equal to it. *)
Fixpoint Array_indexOf_from (i : Z) (a : list value) (t : string) : Z :=
  match a with
  | [] => (-1)%Z
  | e :: a' => if is_string e t then i else Array_indexOf_from (i + 1) a' t
  end.

(** [path.indexOf("/")] for whatever [path] holds: strings and arrays
    have the method; elsewhere only an own property could supply one, and
    calling that would run caller code. *)
Definition indexOf_slash (path : value) : outcome Z :=
  match path with
  | VString s => Return (String_indexOf s "/")
  | VArray a => Return (Array_indexOf_from 0 a "/")
  | VUndefined | VNull => Throw (TypeError (NullishRead "indexOf"))
  | VObject props | VFunction _ props =>
      match lookup_prop "indexOf" props with
      | VFunction _ _ => Stuck Unsupported
      | _ => Throw (TypeError (NotAFunction "path.indexOf"))
      end
  | VBool _ | VGroup _ => Throw (TypeError (NotAFunction "path.indexOf"))
  end.

(** [s.trim()], with the white space of ASCII: tab, line feed, vertical
    tab, form feed, carriage return and space. *)
Definition is_white_space (c : ascii) : bool :=
  match nat_of_ascii c with
  | 9 | 10 | 11 | 12 | 13 | 32 => true
  | _ => false
  end.

Fixpoint trim_start (s : string) : string :=
  match s with
  | EmptyString => EmptyString
  | String c s' => if is_white_space c then trim_start s' else s
  end.

Definition trim (s : string) : string :=
  String.rev (trim_start (String.rev (trim_start s))).

(** [...v] inside an array literal: arrays give their elements, strings
    their characters, nothing else the model holds is iterable. *)
Definition iterate (what : string) (v : value) : outcome (list value) :=
  match v with
  | VArray elems => Return elems
  | VString s => Return (map (fun c => VString (String c EmptyString)) (list_ascii_of_string s))
  | _ => Throw (TypeError (NotIterable what))
  end.

(** [...v] inside an object literal: the own properties. The program
    spreads only what it has just read [type] or [path] from. *)
Definition own_props (v : value) : outcome (list (string * value)) :=
  match v with
  | VObject props | VFunction _ props => Return props
  | VUndefined | VNull | VBool _ => Return []
  | VString _ | VArray _ | VGroup _ => Stuck Unsupported
  end.

(** ** The table of error constructors *)

(** [Group.errors] as [Object.assign] fills it: two constructors. *)
Definition Group_errors : list string :=
  ["InvalidCatchError"; "InvalidHandlerSpecificationError"].

(** [throw new Group.errors.<kind>(arg)]: a name the table lacks reads as
    [undefined], and [new undefined(...)] is a [TypeError]. *)
Definition throw_new {A} (kind : string) (arg : value) : M A :=
  if existsb (String.eqb kind) Group_errors
  then throw (GroupError kind arg)
  else throw (TypeError (NotAConstructor ("Group.errors." +:+ kind))).

(** ** The builder methods *)

(** The part of [addGroup] below its first test. *)
Definition addGroup_checked (this : loc) (path group : value) : M value :=
  let* bad :=
    (if is_nullish path then ret false
     else let* i := lift (indexOf_slash path) in ret (negb (i =? 0)%Z)) in
  if (bad : bool) then
    throw_new "InvalidHandlerSpecificationError"
      (VString "path must either be null or start with /")
  else
    modify this (fun g =>
      mkGroup (catchers g) (middlewares_after g) (middlewares_before g)
        (items g ++ [VObject [("type", VString "group"); ("path", path); ("group", group)]])) ;;
    ret (VGroup this).

(** [addGroup(path, group)]. With a group in first place and nothing in
    second place the method calls itself as [addGroup(null, path)]; that
    call fails the first test ([null] is no instance) and runs the rest. *)
Definition addGroup (this : loc) (path group : value) : M value :=
  if instanceof_Group path && is_nullish group
  then addGroup_checked this VNull path
  else addGroup_checked this path group.

(** The handler literal a bare callback is replaced by. *)
Definition handler_of_callback (callback : value) : value :=
  VObject [("name", VNull); ("respondsTo", VString "then"); ("callback", callback)].

(** The body of the inner [for (let handler of handlers)] loop. *)
Definition check_handler (handler : value) : M unit :=
  if instanceof_Group handler then
    throw_new "HandlerCannotBeGroupError" handler
  else
    let* respondsTo := lift (get_prop handler "respondsTo") in
    if negb (is_string respondsTo "then") && negb (is_string respondsTo "catch") then
      let* shown := lift (ToString respondsTo) in
      throw_new "InvalidHandlerSpecificationError"
        (VString ("Invalid handler respondsTo: '" +:+ shown +:+ "'"))
    else ret tt.

(** [addHandlers] once [methods] is an array; [handlers] is the rest
    parameter, so it is always an array and only its length is in
    question. The callback of [handlers.map] replaces its own element
    and then loops over the whole list [handlers], which still holds the
    arguments as they were passed: the assignment of the mapped list
    happens after [map] returns. *)
Definition addHandlers_array (this : loc) (methods : list value) (path : value)
    (handlers : list value) : M value :=
  let* path_ok :=
    (if negb (String.eqb (typeof path) "string") then ret false
     else let* i := lift (indexOf_slash path) in ret (i =? 0)%Z) in
  if negb path_ok then throw_new "InvalidPathError" path
  else if (List.length methods =? 0)%nat then throw_new "InvalidMethodsError" (VArray methods)
  else
    for_of methods (fun method =>
      match method with
      | VString s =>
          if (String.length (trim s) =? 0)%nat
          then throw_new "InvalidMethodError" method else ret tt
      | _ => throw_new "InvalidMethodError" method
      end) ;;
    if (List.length handlers =? 0)%nat then throw_new "InvalidHandlersError" (VArray handlers)
    else
      let* mapped :=
        map_M (fun handler =>
          let handler' :=
            if String.eqb (typeof handler) "function"
            then handler_of_callback handler else handler in
          for_of handlers check_handler ;;
          ret handler') handlers in
      modify this (fun g =>
        mkGroup (catchers g) (middlewares_after g) (middlewares_before g)
          (items g ++ [VObject [("type", VString "handler"); ("methods", VArray methods);
                                ("path", path); ("handlers", VArray mapped)]])) ;;
      ret (VGroup this).

(** [addHandlers(methods, path, ...handlers)]. When [methods] is not an
    array the method calls itself with [handlers], the array of the rest
    arguments, as one argument: in that call the rest parameter is the
    one-element array holding it. *)
Definition addHandlers (this : loc) (methods path : value) (handlers : list value)
  : M value :=
  match methods with
  | VArray ms => addHandlers_array this ms path handlers
  | _ =>
      if is_nullish methods
      then addHandlers_array this [] path [VArray handlers]
      else addHandlers_array this [methods] path [VArray handlers]
  end.

Definition addHandler (this : loc) (methods path handler : value) : M value :=
  addHandlers this methods path [handler].

(** [after(middleware)]: [push]. *)
Definition after (this : loc) (middleware : value) : M value :=
  modify this (fun g =>
    mkGroup (catchers g) (middlewares_after g ++ [middleware]) (middlewares_before g)
      (items g)) ;;
  ret (VGroup this).

(** [before(middleware)]: [unshift]. *)
Definition before (this : loc) (middleware : value) : M value :=
  modify this (fun g =>
    mkGroup (catchers g) (middlewares_after g) (middleware :: middlewares_before g)
      (items g)) ;;
  ret (VGroup this).

Definition around (this : loc) (middleware : value) : M value :=
  let* b := lift (get_prop middleware "before") in
  before this b ;;
  let* a := lift (get_prop middleware "after") in
  after this a ;;
  ret (VGroup this).

(** [catch(callback)]. The statement after the test pushes [handler], a
    name that neither the method nor the module binds. *)
Definition catch (this : loc) (callback : value) : M value :=
  if negb (String.eqb (typeof callback) "function") then
    throw_new "InvalidCatchError" (VString (typeof callback))
  else
    throw (ReferenceError "handler").

(** ** Collection *)

(** The handler a catcher is turned into. *)
Definition catcher_handler (i : nat) (catcher : value) : value :=
  VObject [("name", VString ("GroupCatcher_" +:+ index_string i));
           ("respondsTo", VString "catch");
           ("callback", catcher)].

(** [appendToRoutes(route)], the local array [routes] made explicit. *)
Definition appendToRoutes (this : loc) (routes : list value) (route : value)
  : M (list value) :=
  let* props := lift (own_props route) in
  let* g := load this in
  let* handlers := lift (get_prop route "handlers") in
  let* own := lift (iterate "route.handlers" handlers) in
  ret (routes ++
       [VObject (set_prop "handlers"
          (VArray (middlewares_before g ++ own ++ middlewares_after g ++
                   imap catcher_handler (catchers g)))
          props)]).

(** [item.group.collectRoutes()] when [item.group] is no instance. *)
Definition collectRoutes_of_other (group : value) : M (list value) :=
  match group with
  | VUndefined | VNull => throw (TypeError (NullishRead "collectRoutes"))
  | VObject props | VFunction _ props =>
      match lookup_prop "collectRoutes" props with
      | VFunction _ _ => lift (Stuck Unsupported)
      | _ => throw (TypeError (NotAFunction "item.group.collectRoutes"))
      end
  | _ => throw (TypeError (NotAFunction "item.group.collectRoutes"))
  end.

(** The route literal of the inner loop:
    [{...subRoute, path: `${ item.path || "" }${ subRoute.path }`}]. *)
Definition prefixed (item subRoute : value) : outcome value :=
  let? copied := own_props subRoute in
  let? prefix := get_prop item "path" in
  let? prefix' := ToString (if truthy prefix then prefix else VString "") in
  let? path := get_prop subRoute "path" in
  let? path' := ToString path in
  Return (VObject (set_prop "path" (VString (prefix' +:+ path')) copied)).

(** The body of the loop over [this.items]; [collect] stands for the
    method itself, called on the subgroup. *)
Definition collect_item (collect : loc -> M (list value)) (this : loc)
    (routes : list value) (item : value) : M (list value) :=
  let* type := lift (get_prop item "type") in
  if is_string type "group" then
    let* group := lift (get_prop item "group") in
    let* subRoutes :=
      match group with
      | VGroup child => collect child
      | _ => collectRoutes_of_other group
      end in
    fold_M (fun routes subRoute =>
      let* route := lift (prefixed item subRoute) in
      appendToRoutes this routes route) routes subRoutes
  else if is_string type "route" then
    appendToRoutes this routes item
  else
    let* shown := lift (ToString type) in
    throw (Error ("Bad type: '" +:+ shown +:+ "'")).

(** [collectRoutes()]. The recursion follows references, so it is
    bounded by [fuel], the depth of the calls. *)
Fixpoint collectRoutes (fuel : nat) (this : loc) : M (list value) :=
  match fuel with
  | 0 => lift (Stuck OutOfFuel)
  | S fuel' =>
      let* g := load this in
      fold_M (collect_item (collectRoutes fuel') this) [] (items g)
  end.

(** The subgroup an item of [this.items] sends [collectRoutes] into. *)
Definition subgroup_of (item : value) : option loc :=
  match get_prop item "type" with
  | Return type =>
      if is_string type "group" then
        match get_prop item "group" with
        | Return (VGroup child) => Some child
        | _ => None
        end
      else None
  | _ => None
  end.

(** The groups under [this] nest less than [d] deep and all are in the
    store: the shape [collectRoutes] terminates on. *)
Fixpoint is_tree (d : nat) (h : heap) (this : loc) : bool :=
  match d with
  | 0 => false
  | S d' =>
      match h !! this with
      | None => false
      | Some g =>
          forallb (fun item =>
            match subgroup_of item with
            | Some child => is_tree d' h child
            | None => true
            end) (items g)
      end
  end.

(** ** Callbacks of the caller *)

Section Callbacks.

(** What calling a function of the caller does to the store. *)
Variable call : value -> list value -> M value.

Definition invoke (what : string) (f : value) (args : list value) : M value :=
  match f with
  | VFunction _ _ => call f args
  | _ => throw (TypeError (NotAFunction what))
  end.

(** [new Group(cb)] *)
Definition new_Group (cb : value) : M loc :=
  let* this := alloc in
  (if is_nullish cb then ret VUndefined else invoke "cb" cb [VGroup this]) ;;
  ret this.

(** The part of [group] below its first test. *)
Definition group_checked (this : loc) (path cb : value) : M value :=
  let* group := new_Group cb in
  addGroup this path (VGroup group) ;;
  ret (VGroup this).

(** [group(path, cb)]; with a function in first place it calls itself
    as [group(null, path)]. *)
Definition group (this : loc) (path cb : value) : M value :=
  if String.eqb (typeof path) "function"
  then group_checked this VNull path
  else group_checked this path cb.

End Callbacks.

(** ** Notions of the statements *)

(** A computation that leaves every store as it finds it. *)
Definition read_only {A} (m : M A) : Prop := forall h, (m h).1 = h.

(** The outcomes that say nothing about the program: the recursion was
    cut short or a reference led nowhere. *)
Definition cut_short {A} (o : outcome A) : bool :=
  match o with
  | Stuck OutOfFuel | Stuck Dangling => true
  | _ => false
  end.

(** The handlers [appendToRoutes] gives a route whose own handlers are
    [own], in a group in state [g]. *)
Definition chain (g : Group) (own : list value) : list value :=
  middlewares_before g ++ own ++ middlewares_after g ++
  imap catcher_handler (catchers g).

(** A route that went through the group in state [g]. *)
Definition wrapped_by (g : Group) (route : value) : Prop :=
  exists own, get_prop route "handlers" = Return (VArray (chain g own)).

(** The item [addHandlers] pushes for methods [["get"]], path ["/x"] and
    the handlers [handlers]. *)
Definition get_x_item (handlers : list value) : value :=
  VObject [("type", VString "handler"); ("methods", VArray [VString "get"]);
           ("path", VString "/x"); ("handlers", VArray handlers)].

(** ** Notions of the further properties *)

(** A string whose first character is the slash. *)
Definition starts_with_slash (s : string) : bool :=
  match s with
  | String c _ => Ascii.eqb c "/"
  | EmptyString => false
  end.

(** The state of a group after [this.items.push(item)]. *)
Definition with_item (g : Group) (item : value) : Group :=
  mkGroup (catchers g) (middlewares_after g) (middlewares_before g) (items g ++ [item]).

(** The item [addGroup] pushes. *)
Definition group_item (path group : value) : value :=
  VObject [("type", VString "group"); ("path", path); ("group", group)].





(** The calls a program can make on a group, the verb shortcuts and the
    callback form of [group] apart. *)
Inductive builder_call : Type :=
| CallAddGroup (path group : value)
| CallAddHandler (methods path handler : value)
| CallAddHandlers (methods path : value) (handlers : list value)
| CallAfter (middleware : value)
| CallAround (middleware : value)
| CallBefore (middleware : value)
| CallCatch (callback : value).

Definition run_call (this : loc) (c : builder_call) : M value :=
  match c with
  | CallAddGroup path group => addGroup this path group
  | CallAddHandler methods path handler => addHandler this methods path handler
  | CallAddHandlers methods path handlers => addHandlers this methods path handlers
  | CallAfter middleware => after this middleware
  | CallAround middleware => around this middleware
  | CallBefore middleware => before this middleware
  | CallCatch callback => catch this callback
  end.

(** A step of a program: [new Group()] or a call on a group made
    before. *)
Inductive builder_step : Type :=
| New
| Call (this : loc) (c : builder_call).

(** The store a step leaves, whether it returned or threw (a program
    may catch the error and go on). *)
Definition exec_step (h : heap) (s : builder_step) : heap :=
  match s with
  | New => (alloc h).1
  | Call this c => (run_call this c h).1
  end.

Definition exec (program : list builder_step) (h : heap) : heap :=
  fold_left exec_step program h.

(** The items the builder methods push: objects tagged ["group"] or
    ["handler"]. *)
Definition builder_item (item : value) : bool :=
  match item with
  | VObject props =>
      is_string (lookup_prop "type" props) "group" ||
      is_string (lookup_prop "type" props) "handler"
  | _ => false
  end.


(** A route as [appendToRoutes] makes it for the group in state [g]:
    the route with its handlers wrapped. Values that are no routes are
    left alone. *)
Definition wrap (g : Group) (route : value) : value :=
  match route with
  | VObject props =>
      match lookup_prop "handlers" props with
      | VArray own => VObject (set_prop "handlers" (VArray (chain g own)) props)
      | _ => route
      end
  | _ => route
  end.

(** A subroute with the prefix of the group item put before its path. *)
Definition with_prefix (prefix : string) (route : value) : value :=
  match route with
  | VObject props =>
      match lookup_prop "path" props with
      | VString path => VObject (set_prop "path" (VString (prefix +:+ path)) props)
      | _ => route
      end
  | _ => route
  end.

(** The prefix a group item stands for: its path when that is a string,
    nothing when it is [null] or [undefined]. *)
Definition prefix_of (item : value) : option string :=
  match get_prop item "path" with
  | Return (VString s) => Some s
  | Return VNull | Return VUndefined => Some EmptyString
  | _ => None
  end.

(** An item that is a well-formed route: an object tagged ["route"]
    with a string for its path and an array for its handlers. *)
Definition route_item (item : value) : bool :=
  match item with
  | VObject props =>
      is_string (lookup_prop "type" props) "route" &&
      match lookup_prop "path" props, lookup_prop "handlers" props with
      | VString _, VArray _ => true
      | _, _ => false
      end
  | _ => false
  end.

(** A tree, less than [d] deep, of well-formed routes and of group items
    with a string or nothing for a prefix. *)
Fixpoint routable (d : nat) (h : heap) (this : loc) : bool :=
  match d with
  | 0 => false
  | S d' =>
      match h !! this with
      | None => false
      | Some g =>
          forallb (fun item =>
            route_item item ||
            match item, subgroup_of item, prefix_of item with
            | VObject _, Some child, Some _ => routable d' h child
            | _, _, _ => false
            end) (items g)
      end
  end.

(** The flattening written out as a function of the tree: each item
    gives its routes, in the order of the items; a route item gives
    itself, a group item the routes of the subgroup with its prefix; all
    of them wrapped by the group. *)
Fixpoint routes_of (d : nat) (h : heap) (this : loc) : list value :=
  match d with
  | 0 => []
  | S d' =>
      match h !! this with
      | None => []
      | Some g =>
          flat_map (fun item =>
            if route_item item then [wrap g item]
            else
              match subgroup_of item, prefix_of item with
              | Some child, Some prefix =>
                  map (fun route => wrap g (with_prefix prefix route))
                    (routes_of d' h child)
              | _, _ => []
              end) (items g)
      end
  end.

(** A computation that takes every store to one related to it by [R],
    however it ends. *)
Definition preserves (R : heap -> heap -> Prop) {A} (m : M A) : Prop :=
  forall h, R h (m h).1.

(** A computation that throws only errors with the property [P]. *)
Definition throws_only (P : error -> Prop) {A} (m : M A) : Prop :=
  forall h h' e, m h = (h', Throw e) -> P e.


(** The only ways the state of a group moves under the builder: items,
    tagged ["group"] or ["handler"], and after middleware are added at
    the end, before middleware at the front, the catchers stay. *)
Definition grows (g g' : Group) : Prop :=
  catchers g' = catchers g /\
  (exists more, items g' = items g ++ more /\ forallb builder_item more = true) /\
  (exists more, middlewares_after g' = middlewares_after g ++ more) /\
  (exists more, middlewares_before g' = more ++ middlewares_before g).

(** The store moved only at [this], and there as [grows] has it. *)
Definition extends (this : loc) (h h' : heap) : Prop :=
  List.length h' = List.length h /\
  (forall l, l <> this -> h' !! l = h !! l) /\
  (forall g, h !! this = Some g -> exists g', h' !! this = Some g' /\ grows g g').

(** The error kinds [Group.errors] can make. *)
Definition of_the_table (e : error) : Prop :=
  match e with
  | GroupError kind _ =>
      kind = "InvalidCatchError" \/ kind = "InvalidHandlerSpecificationError"
  | _ => True
  end.


(** A collected route: an object with a string for its path and an
    array for its handlers. *)
Definition is_route (route : value) : bool :=
  match route with
  | VObject props =>
      match lookup_prop "path" props, lookup_prop "handlers" props with
      | VString _, VArray _ => true
      | _, _ => false
      end
  | _ => false
  end.

(** * Properties *)

(** ** Running a computation step by step *)

Lemma bind_lift {A B} (o : outcome A) (k : A -> M B) (h : heap) :
  bind (lift o) k h =
  match o with
  | Return a => k a h
  | Throw e => (h, Throw e)
  | Stuck w => (h, Stuck w)
  end.
Proof. by destruct o. Qed.

Lemma bind_ret {A B} (a : A) (k : A -> M B) (h : heap) : bind (ret a) k h = k a h.
Proof. done. Qed.

Lemma bind_run {A B} (m : M A) (k : A -> M B) (h h' : heap) (o : outcome A) :
  m h = (h', o) ->
  bind m k h =
  match o with
  | Return a => k a h'
  | Throw e => (h', Throw e)
  | Stuck w => (h', Stuck w)
  end.
Proof. intros Hm. unfold bind. by rewrite Hm. Qed.

Lemma bind_load {B} (l : loc) (k : Group -> M B) (h : heap) (g : Group) :
  h !! l = Some g -> bind (load l) k h = k g h.
Proof. intros Hg. unfold bind, load. by rewrite Hg. Qed.

Lemma bind_modify {B} (l : loc) (f : Group -> Group) (k : unit -> M B)
    (h : heap) (g : Group) :
  h !! l = Some g -> bind (modify l f) k h = k tt (<[l := f g]> h).
Proof. intros Hg. unfold bind, modify. by rewrite Hg. Qed.

(** ** Computations that only read the store *)

Create HintDb read_only.

Lemma read_only_ret {A} (a : A) : read_only (ret a).
Proof. by intros h. Qed.

Lemma read_only_throw {A} (e : error) : read_only (@throw A e).
Proof. by intros h. Qed.

Lemma read_only_lift {A} (o : outcome A) : read_only (lift o).
Proof. by intros h. Qed.

Lemma read_only_load (l : loc) : read_only (load l).
Proof. intros h. unfold load. by destruct (h !! l). Qed.

Lemma read_only_bind {A B} (m : M A) (k : A -> M B) :
  read_only m -> (forall a, read_only (k a)) -> read_only (bind m k).
Proof.
  intros Hm Hk h. unfold bind. specialize (Hm h).
  destruct (m h) as [h' [a|e|w]]; simpl in *; subst; [apply Hk|done..].
Qed.

Lemma read_only_run {A} (m : M A) (h : heap) :
  read_only m -> m h = (h, (m h).2).
Proof. intros Hm. specialize (Hm h). destruct (m h); simpl in *; by subst. Qed.

Lemma read_only_fold_M {A B} (f : B -> A -> M B) (l : list A) :
  (forall acc x, read_only (f acc x)) -> forall acc, read_only (fold_M f acc l).
Proof.
  intros Hf. induction l as [|x l IH]; intros acc; simpl.
  - apply read_only_ret.
  - apply read_only_bind; auto.
Qed.

#[local] Hint Resolve read_only_ret read_only_throw read_only_lift read_only_load
  read_only_bind read_only_fold_M : read_only.

Lemma read_only_appendToRoutes this routes route :
  read_only (appendToRoutes this routes route).
Proof. unfold appendToRoutes. auto 10 with read_only. Qed.

Lemma read_only_collectRoutes_of_other group :
  read_only (collectRoutes_of_other group).
Proof.
  unfold collectRoutes_of_other.
  repeat case_match; auto with read_only.
Qed.

#[local] Hint Resolve read_only_appendToRoutes read_only_collectRoutes_of_other
  : read_only.

Lemma read_only_collect_item collect this routes item :
  (forall l, read_only (collect l)) ->
  read_only (collect_item collect this routes item).
Proof.
  intros Hc. unfold collect_item.
  apply read_only_bind; [auto with read_only|]. intros type.
  repeat case_match; auto 10 with read_only.
  apply read_only_bind; [auto with read_only|]. intros group.
  apply read_only_bind; [case_match; auto with read_only|]. intros subRoutes.
  auto 10 with read_only.
Qed.

Lemma read_only_collectRoutes fuel this : read_only (collectRoutes fuel this).
Proof.
  revert this. induction fuel as [|fuel IH]; intros this; simpl.
  - apply read_only_lift.
  - apply read_only_bind; [apply read_only_load|]. intros g.
    apply read_only_fold_M. intros acc x. by apply read_only_collect_item.
Qed.

(** ** Fuel *)

Lemma fold_M_ext {A B} (f f' : B -> A -> M B) (l : list A) (h : heap) :
  (forall acc x, x ∈ l -> f acc x h = f' acc x h) ->
  (forall acc x, x ∈ l -> (f acc x h).1 = h) ->
  forall acc, fold_M f acc l h = fold_M f' acc l h.
Proof.
  induction l as [|x l IH]; intros Hext Hro acc; simpl; [done|].
  unfold bind. rewrite <- Hext by apply list_elem_of_here.
  pose proof (Hro acc x (list_elem_of_here _ _)) as Hh.
  destruct (f acc x h) as [h' [acc'|e|w]]; simpl in *; subst; try done.
  apply IH; intros; [apply Hext|apply Hro]; by apply list_elem_of_further.
Qed.

Lemma fold_M_cut_short {A B} (f : B -> A -> M B) (l : list A) (h : heap) :
  (forall acc x, x ∈ l -> (f acc x h).1 = h) ->
  (forall acc x, x ∈ l -> cut_short (f acc x h).2 = false) ->
  forall acc, cut_short (fold_M f acc l h).2 = false.
Proof.
  induction l as [|x l IH]; intros Hro Hf acc; simpl; [done|].
  unfold bind.
  pose proof (Hro acc x (list_elem_of_here _ _)) as Hh.
  pose proof (Hf acc x (list_elem_of_here _ _)) as Hs.
  destruct (f acc x h) as [h' [acc'|e|w]]; simpl in *; subst; try done.
  apply IH; intros; [apply Hro|apply Hf]; by apply list_elem_of_further.
Qed.

Lemma cut_short_lift {A} (o : outcome A) (h : heap) :
  cut_short (lift o h).2 = cut_short o.
Proof. done. Qed.

Lemma get_prop_cut_short v name : cut_short (get_prop v name) = false.
Proof. destruct v; simpl; repeat case_match; done. Qed.

Lemma own_props_cut_short v : cut_short (own_props v) = false.
Proof. by destruct v. Qed.

Lemma iterate_cut_short what v : cut_short (iterate what v) = false.
Proof. by destruct v. Qed.

(** Induction on values, through the lists they nest. *)
Lemma value_nested_ind (P : value -> Prop) :
  P VUndefined -> P VNull -> (forall b, P (VBool b)) -> (forall s, P (VString s)) ->
  (forall source props, Forall (fun kv => P kv.2) props -> P (VFunction source props)) ->
  (forall props, Forall (fun kv => P kv.2) props -> P (VObject props)) ->
  (forall elems, Forall P elems -> P (VArray elems)) ->
  (forall ref, P (VGroup ref)) ->
  forall v, P v.
Proof.
  intros H1 H2 H3 H4 H5 H6 H7 H8. fix F 1.
  intros [| | b | s | source props | props | elems | ref].
  - exact H1.
  - exact H2.
  - apply H3.
  - apply H4.
  - apply H5. revert props. fix G 1.
    intros [|[k v] props]; constructor; [apply F | apply G].
  - apply H6. revert props. fix G 1.
    intros [|[k v] props]; constructor; [apply F | apply G].
  - apply H7. revert elems. fix G 1.
    intros [|v elems]; constructor; [apply F | apply G].
  - apply H8.
Qed.

Lemma ToString_cut_short v : cut_short (ToString v) = false.
Proof.
  induction v as [| | [] | | source props _ | props _ | elems Hall | ]
    using value_nested_ind; simpl; try done; try (by case_match).
  induction Hall as [|e l He Hl IH]; [done|].
  assert (cut_short (match e with
                     | VUndefined | VNull => Return ""
                     | _ => ToString e
                     end) = false) as Hfirst by (by destruct e).
  destruct (match e with VUndefined | VNull => Return "" | _ => ToString e end)
    as [s|err|w]; simpl in *; try done.
  destruct l as [|e' l']; [done|].
  simpl in IH |- *.
  match goal with |- cut_short (obind ?j _) = _ => destruct j as [r|err|w] end;
    simpl in *; done.
Qed.

Lemma prefixed_cut_short item subRoute : cut_short (prefixed item subRoute) = false.
Proof.
  unfold prefixed.
  pose proof (own_props_cut_short subRoute).
  destruct (own_props subRoute); simpl in *; try done.
  pose proof (get_prop_cut_short item "path").
  destruct (get_prop item "path") as [prefix| |]; simpl in *; try done.
  pose proof (ToString_cut_short (if truthy prefix then prefix else VString "")).
  destruct (ToString _); simpl in *; try done.
  pose proof (get_prop_cut_short subRoute "path").
  destruct (get_prop subRoute "path") as [path| |]; simpl in *; try done.
  pose proof (ToString_cut_short path).
  destruct (ToString path); simpl in *; done.
Qed.

Lemma appendToRoutes_cut_short this routes route h g :
  h !! this = Some g ->
  cut_short (appendToRoutes this routes route h).2 = false.
Proof.
  intros Hg. unfold appendToRoutes, bind, lift, load, ret.
  pose proof (own_props_cut_short route).
  destruct (own_props route); simpl in *; try done.
  rewrite Hg.
  pose proof (get_prop_cut_short route "handlers").
  destruct (get_prop route "handlers") as [hs| |]; simpl in *; try done.
  pose proof (iterate_cut_short "route.handlers" hs).
  destruct (iterate _ hs); simpl in *; done.
Qed.

Lemma collectRoutes_of_other_cut_short group h :
  cut_short (collectRoutes_of_other group h).2 = false.
Proof. unfold collectRoutes_of_other. repeat case_match; done. Qed.

Lemma collect_item_ext collect collect' this routes item h :
  (forall child, subgroup_of item = Some child -> collect child h = collect' child h) ->
  collect_item collect this routes item h = collect_item collect' this routes item h.
Proof.
  intros Hc. unfold collect_item, subgroup_of, bind, lift in *.
  destruct (get_prop item "type") as [type| |]; [|done..].
  destruct (is_string type "group"); [|done].
  destruct (get_prop item "group") as [[| | | | | | |child]| |]; try done.
  by rewrite Hc.
Qed.

Lemma collect_item_cut_short collect this routes item h g :
  h !! this = Some g ->
  (forall child, subgroup_of item = Some child ->
     (collect child h).1 = h /\ cut_short (collect child h).2 = false) ->
  cut_short (collect_item collect this routes item h).2 = false.
Proof.
  intros Hg Hc. unfold collect_item, subgroup_of in *.
  pose proof (get_prop_cut_short item "type") as Ht.
  rewrite bind_lift.
  destruct (get_prop item "type") as [type| |]; simpl in *; try done.
  destruct (is_string type "group").
  - pose proof (get_prop_cut_short item "group") as Hgr.
    rewrite bind_lift.
    destruct (get_prop item "group") as [group| |]; simpl in *; try done.
    assert (exists o, (match group with
                       | VGroup child => collect child
                       | _ => collectRoutes_of_other group
                       end) h = (h, o) /\ cut_short o = false) as (o & Hrun & Ho).
    { destruct group as [| | | | | | |child];
        try (eexists; split;
             [apply read_only_run, read_only_collectRoutes_of_other
             |apply collectRoutes_of_other_cut_short]).
      destruct (Hc child eq_refl) as [H1 H2].
      destruct (collect child h) as [h' o]; simpl in *; subst. eauto. }
    rewrite (bind_run _ _ _ _ _ Hrun).
    destruct o as [subRoutes| |w]; simpl in *; try done.
    apply fold_M_cut_short; intros acc x _.
    + apply (read_only_bind (lift (prefixed item x))); auto with read_only.
    + rewrite bind_lift.
      pose proof (prefixed_cut_short item x).
      destruct (prefixed item x); simpl in *; try done.
      by eapply appendToRoutes_cut_short.
  - destruct (is_string type "route").
    + by eapply appendToRoutes_cut_short.
    + rewrite bind_lift. pose proof (ToString_cut_short type).
      destruct (ToString type); simpl in *; done.
Qed.

(** Fuel beyond the depth of the tree changes nothing. *)
Lemma collectRoutes_fuel d : forall fuel this h,
  is_tree d h this = true -> d <= fuel ->
  collectRoutes fuel this h = collectRoutes d this h.
Proof.
  induction d as [|d IH]; intros fuel this h Ht Hle; [done|].
  destruct fuel as [|fuel]; [lia|]. simpl in *.
  unfold bind, load. destruct (h !! this) as [g|]; [|done].
  apply fold_M_ext.
  - intros acc item Hin. apply collect_item_ext. intros child Hsub.
    apply IH; [|lia].
    rewrite forallb_forall in Ht. apply list_elem_of_In, Ht in Hin.
    by rewrite Hsub in Hin.
  - intros acc item _. apply read_only_collect_item, read_only_collectRoutes.
Qed.

(** On a tree, fuel equal to its depth brings the recursion to its end. *)
Lemma collectRoutes_cut_short d : forall this h,
  is_tree d h this = true -> cut_short (collectRoutes d this h).2 = false.
Proof.
  induction d as [|d IH]; intros this h Ht; [done|]. simpl in *.
  unfold bind, load. destruct (h !! this) as [g|] eqn:Hg; [|done].
  apply fold_M_cut_short.
  - intros acc item _. apply read_only_collect_item, read_only_collectRoutes.
  - intros acc item Hin. eapply collect_item_cut_short; [done|].
    intros child Hsub. split; [apply read_only_collectRoutes|].
    apply IH. rewrite forallb_forall in Ht. apply list_elem_of_In, Ht in Hin.
    by rewrite Hsub in Hin.
Qed.

(** Off the trees there is no such end: a group that holds itself keeps
    [collectRoutes] calling itself, whatever the fuel. *)
Remark collectRoutes_cycle (fuel : nat) :
  let h := [mkGroup [] [] []
              [VObject [("type", VString "group"); ("path", VNull);
                        ("group", VGroup 0)]]] in
  collectRoutes fuel 0 h = (h, Stuck OutOfFuel).
Proof.
  induction fuel as [|fuel IH]; [done|]. simpl in *.
  unfold bind at 1. simpl. unfold bind at 1, collect_item.
  rewrite bind_lift. simpl. rewrite bind_lift. simpl.
  by rewrite (bind_run _ _ _ _ _ IH).
Qed.

(** ** Subgroups made in place *)

(** With a function in first place [group] takes it for the callback
    and attaches the new group without a prefix. *)
Remark group_callback_first call this source props cb :
  group call this (VFunction source props) cb =
  group call this VNull (VFunction source props).
Proof. done. Qed.

(** Without a callback [group(path)] makes an empty group and hands it,
    with [path], to [addGroup]. *)
Remark group_without_callback call this path h :
  group call this (VString path) VUndefined h =
  (let* child := alloc in
   addGroup this (VString path) (VGroup child) ;;
   ret (VGroup this)) h.
Proof. done. Qed.

(** ** Object literals *)

Lemma lookup_set_prop_eq name v props :
  lookup_prop name (set_prop name v props) = v.
Proof.
  induction props as [|[k w] props IH]; simpl.
  - by rewrite String.eqb_refl.
  - destruct (String.eqb k name) eqn:E; simpl; by rewrite E.
Qed.

Lemma lookup_set_prop_ne name name' v props :
  name <> name' ->
  lookup_prop name' (set_prop name v props) = lookup_prop name' props.
Proof.
  intros Hne. induction props as [|[k w] props IH]; simpl.
  - by apply String.eqb_neq in Hne as ->.
  - destruct (String.eqb k name) eqn:E; simpl.
    + apply String.eqb_eq in E as ->.
      by apply String.eqb_neq in Hne as ->.
    + by rewrite IH.
Qed.

(** ** The chain a group wraps a route in *)

Lemma appendToRoutes_run this routes route h g props own :
  h !! this = Some g ->
  own_props route = Return props ->
  (let? handlers := get_prop route "handlers" in
   iterate "route.handlers" handlers) = Return own ->
  appendToRoutes this routes route h =
  (h, Return (routes ++ [VObject (set_prop "handlers" (VArray (chain g own)) props)])).
Proof.
  intros Hg Hp Hown. unfold appendToRoutes.
  rewrite bind_lift, Hp, (bind_load _ _ _ _ Hg), bind_lift.
  destruct (get_prop route "handlers") as [handlers| |]; simpl in Hown; [|done..].
  by rewrite bind_lift, Hown.
Qed.

Lemma appendToRoutes_Return this routes route h h' g routes' :
  h !! this = Some g ->
  appendToRoutes this routes route h = (h', Return routes') ->
  h' = h /\ exists props own,
    routes' = routes ++ [VObject (set_prop "handlers" (VArray (chain g own)) props)].
Proof.
  intros Hg. unfold appendToRoutes.
  rewrite bind_lift. destruct (own_props route) as [props| |]; [|done..].
  rewrite (bind_load _ _ _ _ Hg), bind_lift.
  destruct (get_prop route "handlers") as [handlers| |]; [|done..].
  rewrite bind_lift.
  destruct (iterate "route.handlers" handlers) as [own| |]; [|done..].
  intros [= <- <-]. eauto.
Qed.

Lemma fold_M_invariant {A B} (I : heap -> B -> Prop) (f : B -> A -> M B) (l : list A) :
  (forall acc x h1 h2 acc', I h1 acc -> f acc x h1 = (h2, Return acc') -> I h2 acc') ->
  forall acc h h' r,
    I h acc -> fold_M f acc l h = (h', Return r) -> I h' r.
Proof.
  intros Hstep. induction l as [|x l IH]; intros acc h h' r HI; simpl.
  - by intros [= <- <-].
  - unfold bind. destruct (f acc x h) as [h1 [acc1| |]] eqn:E; [|done..].
    apply IH. by eapply Hstep.
Qed.

Lemma appendToRoutes_wrapped this routes route h h' g routes' :
  h !! this = Some g ->
  Forall (wrapped_by g) routes ->
  appendToRoutes this routes route h = (h', Return routes') ->
  h' = h /\ Forall (wrapped_by g) routes'.
Proof.
  intros Hg Hall Hrun.
  destruct (appendToRoutes_Return _ _ _ _ _ _ _ Hg Hrun) as (-> & props & own & ->).
  split; [done|]. apply Forall_app. split; [done|].
  constructor; [|done]. exists own. simpl. by rewrite lookup_set_prop_eq.
Qed.

(** Every route [collectRoutes] returns for a group went through that
    group's [appendToRoutes]. *)
Lemma collectRoutes_wrapped fuel this h h' g routes :
  h !! this = Some g ->
  collectRoutes fuel this h = (h', Return routes) ->
  Forall (wrapped_by g) routes.
Proof.
  intros Hg. destruct fuel as [|fuel]; [done|]. simpl.
  rewrite (bind_load _ _ _ _ Hg). intros Hrun.
  eapply (fold_M_invariant (fun h1 acc => h1 = h /\ Forall (wrapped_by g) acc))
    in Hrun as [_ ?]; [done| |done].
  intros acc item h1 h2 acc' [-> Hacc]. unfold collect_item.
  rewrite bind_lift. destruct (get_prop item "type") as [type| |]; [|done..].
  destruct (is_string type "group").
  - rewrite bind_lift. destruct (get_prop item "group") as [group| |]; [|done..].
    set (sub := match group with
                | VGroup child => collectRoutes fuel child
                | _ => collectRoutes_of_other group
                end).
    assert (read_only sub) as Hsub.
    { subst sub. destruct group; auto using read_only_collectRoutes with read_only. }
    rewrite (bind_run _ _ _ _ _ (read_only_run _ h Hsub)).
    destruct (sub h).2 as [subRoutes| |]; [|done..].
    apply (fold_M_invariant (fun h1 acc => h1 = h /\ Forall (wrapped_by g) acc));
      [|done].
    intros acc1 subRoute h3 h4 acc2 [-> Hacc1]. rewrite bind_lift.
    destruct (prefixed item subRoute); [|done..].
    by apply appendToRoutes_wrapped.
  - destruct (is_string type "route").
    + by apply appendToRoutes_wrapped.
    + rewrite bind_lift. by destruct (ToString type).
Qed.

(** ** What a registration leaves behind *)

Lemma bind_assoc {A B C} (m : M A) (k : A -> M B) (k' : B -> M C) (h : heap) :
  bind (bind m k) k' h = bind m (fun a => bind (k a) k') h.
Proof. unfold bind. by destruct (m h) as [h1 [a| |]]. Qed.

Lemma fold_M_app {A B} (f : B -> A -> M B) (l1 l2 : list A) :
  forall acc h,
    fold_M f acc (l1 ++ l2) h =
    bind (fold_M f acc l1) (fun acc' => fold_M f acc' l2) h.
Proof.
  induction l1 as [|x l1 IH]; intros acc h; simpl; [done|].
  unfold bind in *.
  destruct (f acc x h) as [h1 [acc1| |]]; [apply IH|done..].
Qed.

Lemma read_only_throw_new {A} kind arg : read_only (@throw_new A kind arg).
Proof. unfold throw_new. case_match; apply read_only_throw. Qed.

Lemma read_only_for_of {A} (l : list A) (body : A -> M unit) :
  (forall x, read_only (body x)) -> read_only (for_of l body).
Proof.
  intros Hb. induction l as [|x l IH]; simpl; auto with read_only.
Qed.

Lemma read_only_map_M {A B} (f : A -> M B) (l : list A) :
  (forall x, read_only (f x)) -> read_only (map_M f l).
Proof.
  intros Hf. induction l as [|x l IH]; simpl; auto 10 with read_only.
Qed.

Lemma read_only_check_handler handler : read_only (check_handler handler).
Proof.
  unfold check_handler.
  repeat case_match; auto 10 using @read_only_throw_new with read_only.
  apply read_only_bind; [apply read_only_lift|]. intros r.
  repeat case_match; auto 10 using @read_only_throw_new with read_only.
Qed.

(** An item tagged ["handler"] stops the loop of [collectRoutes]. *)
Lemma collect_item_handler collect this routes props h :
  lookup_prop "type" props = VString "handler" ->
  collect_item collect this routes (VObject props) h =
  (h, Throw (Error "Bad type: 'handler'")).
Proof. intros Ht. unfold collect_item. rewrite bind_lift. simpl. by rewrite Ht. Qed.

Lemma throw_new_not_Return {A} kind arg (h h' : heap) (a : A) :
  throw_new kind arg h <> (h', Return a).
Proof. unfold throw_new. by case_match. Qed.

(** A returning [addHandlers] has pushed one item, tagged ["handler"]. *)
Lemma addHandlers_array_Return this methods path handlers h h' v :
  addHandlers_array this methods path handlers h = (h', Return v) ->
  exists g mapped,
    h !! this = Some g /\
    h' = <[this := mkGroup (catchers g) (middlewares_after g) (middlewares_before g)
                     (items g ++ [VObject [("type", VString "handler");
                                           ("methods", VArray methods);
                                           ("path", path);
                                           ("handlers", VArray mapped)]])]> h.
Proof.
  unfold addHandlers_array.
  set (test := if negb (String.eqb (typeof path) "string") then ret false
               else let* i := lift (indexOf_slash path) in ret (i =? 0)%Z).
  assert (read_only test) as Htest
    by (subst test; case_match; auto with read_only).
  rewrite (bind_run _ _ _ _ _ (read_only_run _ h Htest)).
  destruct (test h).2 as [[]| |]; simpl; [|by intros ?%throw_new_not_Return|done..].
  destruct (List.length methods =? 0)%nat; [by intros ?%throw_new_not_Return|].
  match goal with |- bind ?m _ _ = _ -> _ => set (loop := m) end.
  assert (read_only loop) as Hloop.
  { subst loop. apply read_only_for_of. intros method.
    repeat case_match; auto using @read_only_throw_new with read_only. }
  rewrite (bind_run _ _ _ _ _ (read_only_run _ h Hloop)).
  destruct (loop h).2 as [[]| |]; [|done..].
  destruct (List.length handlers =? 0)%nat; [by intros ?%throw_new_not_Return|].
  match goal with |- bind ?m _ _ = _ -> _ => set (mapping := m) end.
  assert (read_only mapping) as Hmap.
  { subst mapping. apply read_only_map_M. intros handler.
    apply read_only_bind; [|auto with read_only].
    apply read_only_for_of, read_only_check_handler. }
  rewrite (bind_run _ _ _ _ _ (read_only_run _ h Hmap)).
  destruct (mapping h).2 as [mapped| |]; [|done..].
  unfold bind, modify. destruct (h !! this) as [g|]; [|done].
  intros [= <- <-]. eauto.
Qed.

Lemma addHandlers_Return this methods path handlers h h' v :
  addHandlers this methods path handlers h = (h', Return v) ->
  exists g props,
    h !! this = Some g /\
    lookup_prop "type" props = VString "handler" /\
    h' = <[this := mkGroup (catchers g) (middlewares_after g) (middlewares_before g)
                     (items g ++ [VObject props])]> h.
Proof.
  unfold addHandlers. intros Hrun.
  assert (exists ms hs, addHandlers_array this ms path hs h = (h', Return v))
    as (ms & hs & Harr) by (repeat case_match; eauto).
  apply addHandlers_array_Return in Harr as (g & mapped & Hg & ->).
  by exists g, [("type", VString "handler"); ("methods", VArray ms); ("path", path);
               ("handlers", VArray mapped)].
Qed.

(** So the group an accepted registration was made on cannot be
    collected, whatever else it holds and however much fuel there is. *)
Lemma collectRoutes_after_addHandlers this methods path handlers h h' v :
  addHandlers this methods path handlers h = (h', Return v) ->
  forall fuel h2 routes, collectRoutes fuel this h' <> (h2, Return routes).
Proof.
  intros (g & props & Hg & Htype & ->)%addHandlers_Return fuel h2 routes.
  destruct fuel as [|fuel]; [done|]. simpl.
  assert (this < List.length h) as Hlt by by eapply lookup_lt_Some.
  rewrite (bind_load _ _ _ _ (list_lookup_insert_eq _ _ _ Hlt)). simpl.
  rewrite fold_M_app. unfold bind at 1.
  destruct (fold_M _ _ (items g) _) as [h3 [acc| |]]; [|done..].
  simpl. unfold bind. by rewrite collect_item_handler.
Qed.

Lemma for_of_Return {A} (l : list A) (body : A -> M unit) (h h' : heap) (u : unit) :
  (forall x, read_only (body x)) ->
  for_of l body h = (h', Return u) ->
  forall x, x ∈ l -> body x h = (h, Return tt).
Proof.
  intros Hb. induction l as [|y l IH]; simpl; intros Hrun x Hin.
  - by apply elem_of_nil in Hin.
  - rewrite (bind_run _ _ _ _ _ (read_only_run _ h (Hb y))) in Hrun.
    destruct (body y h).2 as [[]| |] eqn:Hy; [|done..].
    apply elem_of_cons in Hin as [->|Hin]; [|by apply IH].
    by rewrite (read_only_run _ h (Hb y)), Hy.
Qed.

Lemma bind_Return_inv {A B} (m : M A) (k : A -> M B) (h h' : heap) (b : B) :
  bind m k h = (h', Return b) ->
  exists h1 a, m h = (h1, Return a) /\ k a h1 = (h', Return b).
Proof. unfold bind. destruct (m h) as [h1 [a| |]]; [eauto|done..]. Qed.

Lemma map_M_runs_body {A B} (f : A -> M B) (l : list A) (h h' : heap) (ys : list B) :
  l <> [] -> map_M f l h = (h', Return ys) ->
  exists x h1 y, f x h = (h1, Return y).
Proof.
  destruct l as [|x l]; [done|]. simpl.
  intros _ (h1 & y & Hx & _)%bind_Return_inv. eauto.
Qed.

(** A returning [addHandlers] has run the inner loop to its end: every
    handler, as it was passed, went through [check_handler]. *)
Lemma addHandlers_array_checks this methods path handlers h h' v :
  addHandlers_array this methods path handlers h = (h', Return v) ->
  forall handler, handler ∈ handlers -> check_handler handler h = (h, Return tt).
Proof.
  unfold addHandlers_array.
  set (test := if negb (String.eqb (typeof path) "string") then ret false
               else let* i := lift (indexOf_slash path) in ret (i =? 0)%Z).
  assert (read_only test) as Htest
    by (subst test; case_match; auto with read_only).
  rewrite (bind_run _ _ _ _ _ (read_only_run _ h Htest)).
  destruct (test h).2 as [[]| |]; simpl; [|by intros ?%throw_new_not_Return|done..].
  destruct (List.length methods =? 0)%nat; [by intros ?%throw_new_not_Return|].
  match goal with |- bind ?m _ _ = _ -> _ => set (loop := m) end.
  assert (read_only loop) as Hloop.
  { subst loop. apply read_only_for_of. intros method.
    repeat case_match; auto using @read_only_throw_new with read_only. }
  rewrite (bind_run _ _ _ _ _ (read_only_run _ h Hloop)).
  destruct (loop h).2 as [[]| |]; [|done..].
  destruct (List.length handlers =? 0)%nat eqn:Hlen;
    [by intros ?%throw_new_not_Return|].
  intros (h1 & mapped & Hmap & _)%bind_Return_inv.
  apply map_M_runs_body in Hmap as (x & h2 & y & Hbody);
    [|by intros ->].
  apply bind_Return_inv in Hbody as (h3 & [] & Hfor & _).
  by eapply for_of_Return; [apply read_only_check_handler|].
Qed.

(** A callback without a [respondsTo] of its own does not pass. *)
Lemma check_handler_bare_callback source h :
  check_handler (VFunction source []) h =
  (h, Throw (GroupError "InvalidHandlerSpecificationError"
               (VString "Invalid handler respondsTo: 'undefined'"))).
Proof. done. Qed.

(** The call [addHandlers] makes on itself hands over the rest array as
    one handler; an array has no [respondsTo], so that call never
    registers. *)
Lemma addHandlers_array_boxed_rest this methods path hs h h' v :
  addHandlers_array this methods path [VArray hs] h <> (h', Return v).
Proof.
  unfold addHandlers_array.
  set (test := if negb (String.eqb (typeof path) "string") then ret false
               else let* i := lift (indexOf_slash path) in ret (i =? 0)%Z).
  assert (read_only test) as Htest
    by (subst test; case_match; auto with read_only).
  rewrite (bind_run _ _ _ _ _ (read_only_run _ h Htest)).
  destruct (test h).2 as [[]| |]; simpl; [|by apply throw_new_not_Return|done..].
  destruct (List.length methods =? 0)%nat; [by apply throw_new_not_Return|].
  match goal with |- bind ?m _ _ <> _ => set (loop := m) end.
  assert (read_only loop) as Hloop.
  { subst loop. apply read_only_for_of. intros method.
    repeat case_match; auto using @read_only_throw_new with read_only. }
  rewrite (bind_run _ _ _ _ _ (read_only_run _ h Hloop)).
  by destruct (loop h).2 as [[]| |].
Qed.

(** * The claims *)

(** ** Registration and collection of one handler set *)

(** C1: registering one bare callback with methods [["get"]] and path
    ["/x"] on a group without middleware, catchers or subgroups should
    succeed and [collectRoutes()] should return the one route with the
    normalized handler. On the code the registration throws
    [InvalidHandlerSpecificationError]: the loop inside the [map] callback
    reads [respondsTo] off the callback as it was passed, so no call with
    a bare callback among its handlers registers anything. And a group
    that holds the item the registration was to push does not collect:
    the item is tagged ["handler"], [collectRoutes] looks for ["route"]. *)
Theorem single_handler_route_fails :
  (forall (h : heap) (this : loc) (source : string),
     addHandlers this (VArray [VString "get"]) (VString "/x") [VFunction source []] h =
     (h, Throw (GroupError "InvalidHandlerSpecificationError"
                  (VString "Invalid handler respondsTo: 'undefined'")))) /\
  (forall (this : loc) (methods path : value) (handlers : list value) (source : string)
          (h h' : heap) (v : value),
     VFunction source [] ∈ handlers ->
     addHandlers this methods path handlers h <> (h', Return v)) /\
  (forall (fuel : nat) (fn : value),
     let h := [mkGroup [] [] [] [get_x_item [handler_of_callback fn]]] in
     collectRoutes (S fuel) 0 h = (h, Throw (Error "Bad type: 'handler'"))).
Proof.
  split; [reflexivity|]. split; [|reflexivity].
  intros this methods path handlers source h h' v Hin Hrun.
  unfold addHandlers in Hrun.
  assert (forall ms, addHandlers_array this ms path handlers h <> (h', Return v)) as Harr.
  { intros ms Hms.
    pose proof (addHandlers_array_checks _ _ _ _ _ _ _ Hms _ Hin) as Hcheck.
    by rewrite check_handler_bare_callback in Hcheck. }
  destruct methods; try (by eapply Harr);
    case_match; by eapply addHandlers_array_boxed_rest.
Qed.

Lemma single_handler_route_fails_witness :
  let fn := VFunction "function fn() {}" [] in
  let ok := handler_of_callback (VFunction "function ok() {}" []) in
  let h := [mkGroup [] [] [] []] in
  fn ∈ [ok; fn] /\
  addHandlers 0 (VArray [VString "get"; VString "post"]) (VString "/x") [ok; fn] h <>
    ([mkGroup [] [] [] [get_x_item [ok; handler_of_callback fn]]], Return (VGroup 0)).
Proof.
  intros fn ok h.
  assert (fn ∈ [ok; fn]) as Hin
    by (apply list_elem_of_further, list_elem_of_here).
  split; [exact Hin|].
  exact (proj1 (proj2 single_handler_route_fails) 0
           (VArray [VString "get"; VString "post"]) (VString "/x") [ok; fn]
           "function fn() {}" h _ (VGroup 0) Hin).
Defined.

(** ** Nesting *)

(** C3: a parent with before list [[pb]] holding, at ["/child"], a child
    with before list [[cb]] and one handler registration at ["/leaf"]
    should collect to a route at ["/child/leaf"] with chain
    [[pb, cb, handlerFn]]. On the code the tree built by the builder
    methods (the handler passed in object form, the only form
    [addHandlers] accepts) does not collect: the child's item is tagged
    ["handler"] and [collectRoutes] throws on it. Passed as a bare
    callback, the handler is not even registered. *)
Theorem nested_route_collection_fails :
  forall (pb cb handlerFn : value) (fuel : nat),
    let build :=
      let* parent := alloc in
      let* child := alloc in
      before parent pb ;;
      before child cb ;;
      addHandlers child (VArray [VString "get"]) (VString "/leaf")
        [handler_of_callback handlerFn] ;;
      addGroup parent (VString "/child") (VGroup child) ;;
      ret parent in
    exists h parent,
      build [] = (h, Return parent) /\
      h = [mkGroup [] [] [pb]
             [VObject [("type", VString "group"); ("path", VString "/child");
                       ("group", VGroup 1)]];
           mkGroup [] [] [cb]
             [VObject [("type", VString "handler"); ("methods", VArray [VString "get"]);
                       ("path", VString "/leaf");
                       ("handlers", VArray [handler_of_callback handlerFn])]]] /\
      collectRoutes (S (S fuel)) parent h = (h, Throw (Error "Bad type: 'handler'")) /\
      (forall source : string,
         addHandlers 1 (VArray [VString "get"]) (VString "/leaf") [VFunction source []] h =
         (h, Throw (GroupError "InvalidHandlerSpecificationError"
                      (VString "Invalid handler respondsTo: 'undefined'")))).
Proof. intros. eexists _, _. repeat split; reflexivity. Qed.

(** ** Catchers *)

(** C4: [catch(callback)] should append a callable [callback] to the
    catchers and return the group, and fail with [InvalidCatch] otherwise.
    On the code no call returns and none changes the store: a callable
    [callback] ends in the [ReferenceError] of the unbound name
    [handler], anything else in [InvalidCatchError]. *)
Theorem catch_never_appends :
  forall (h : heap) (this : loc) (callback : value),
    catch this callback h =
    (h, if String.eqb (typeof callback) "function"
        then Throw (ReferenceError "handler")
        else Throw (GroupError "InvalidCatchError" (VString (typeof callback)))).
Proof. intros h this callback. unfold catch. by destruct callback. Qed.

(** ** Error kinds of [addHandlers] *)

(** C5: [addHandlers([], "/x", fn)] should fail with [InvalidMethods],
    [addHandlers("get", "nope", fn)] with [InvalidPath] and
    [addHandlers("get", "/x")] with [InvalidHandlers]. On the code the
    first two end in a [TypeError], because [Group.errors] holds neither
    constructor, and the third in [InvalidHandlerSpecificationError],
    because the call that normalizes ["get"] passes the empty rest array
    on as one handler. *)
Theorem addHandlers_error_kinds :
  forall (h : heap) (this : loc) (fn : value),
    addHandlers this (VArray []) (VString "/x") [fn] h =
      (h, Throw (TypeError (NotAConstructor "Group.errors.InvalidMethodsError"))) /\
    addHandlers this (VString "get") (VString "nope") [fn] h =
      (h, Throw (TypeError (NotAConstructor "Group.errors.InvalidPathError"))) /\
    addHandlers this (VString "get") (VString "/x") [] h =
      (h, Throw (GroupError "InvalidHandlerSpecificationError"
                   (VString "Invalid handler respondsTo: 'undefined'"))).
Proof. intros. repeat split; reflexivity. Qed.

(** ** Collection of builder-made trees *)

(** C6: [collectRoutes] should never throw on a tree made by the builder
    methods. On the code one accepted registration is enough to keep it
    from returning: [addHandlers] tags its item ["handler"], the loop of
    [collectRoutes] accepts ["group"] and ["route"]. So after every
    [addHandlers] that returns, [collectRoutes] on the same group returns
    no routes, and on a group that holds nothing else it throws the
    error meant for an unknown tag. *)
Theorem collectRoutes_throws_on_handler_item :
  (forall (this : loc) (methods path : value) (handlers : list value)
          (h h' : heap) (v : value),
     addHandlers this methods path handlers h = (h', Return v) ->
     forall fuel h2 routes, collectRoutes fuel this h' <> (h2, Return routes)) /\
  (forall (fn : value) (fuel : nat),
     let build :=
       let* this := alloc in
       addHandlers this (VArray [VString "get"]) (VString "/x") [handler_of_callback fn] ;;
       ret this in
     exists h this,
       build [] = (h, Return this) /\
       h = [mkGroup [] [] [] [get_x_item [handler_of_callback fn]]] /\
       collectRoutes (S fuel) this h = (h, Throw (Error "Bad type: 'handler'"))).
Proof.
  split.
  - intros this methods path handlers h h' v. apply collectRoutes_after_addHandlers.
  - intros. eexists _, _. repeat split; reflexivity.
Qed.

Lemma collectRoutes_throws_on_handler_item_witness :
  let handler := handler_of_callback (VFunction "function fn() {}" []) in
  let h := [mkGroup [] [] [] []] in
  let h' := [mkGroup [] [] [] [get_x_item [handler]]] in
  addHandlers 0 (VArray [VString "get"]) (VString "/x") [handler] h =
    (h', Return (VGroup 0)) /\
  collectRoutes 1 0 h' <> (h', Return []).
Proof.
  intros handler h h'. split; [reflexivity|].
  exact (proj1 collectRoutes_throws_on_handler_item 0 (VArray [VString "get"])
           (VString "/x") [handler] h h' (VGroup 0) eq_refl 1 h' []).
Defined.

(** ** A single method name *)

(** C8: [addHandlers("get", p, ...hs)] should behave as
    [addHandlers(["get"], p, ...hs)], and absent methods should fail with
    [InvalidMethods]. On the code a call whose [methods] is not an array
    never registers, whatever the path and the handlers: the call it
    makes on itself passes the rest array as one handler, which has no
    [respondsTo]. The array form accepts a handler object where the
    string form throws. Absent methods end in a [TypeError] for want of
    the constructor. *)
Theorem addHandlers_string_method_differs :
  (forall (this : loc) (method : string) (path : value) (hs : list value)
          (h h' : heap) (v : value),
     addHandlers this (VString method) path hs h <> (h', Return v)) /\
  (forall (fn : value),
     let h := [mkGroup [] [] [] []] in
     let handler := handler_of_callback fn in
     addHandlers 0 (VArray [VString "get"]) (VString "/x") [handler] h =
       ([mkGroup [] [] [] [get_x_item [handler]]], Return (VGroup 0)) /\
     (forall hs : list value,
        addHandlers 0 (VString "get") (VString "/x") hs h =
          (h, Throw (GroupError "InvalidHandlerSpecificationError"
                       (VString "Invalid handler respondsTo: 'undefined'")))) /\
     (forall hs : list value,
        addHandlers 0 VUndefined (VString "/x") hs h =
          (h, Throw (TypeError (NotAConstructor "Group.errors.InvalidMethodsError"))))).
Proof.
  split.
  - intros this method path hs h h' v. apply addHandlers_array_boxed_rest.
  - intros. repeat split; reflexivity.
Qed.

(** ** The order of a wrapped chain *)

(** C2: for every group [G] and every route that reaches [G] during
    collection, the route [appendToRoutes] adds has as its handlers, in
    this order: [G]'s before list as stored, the route's own handlers,
    [G]'s after list as stored, then [G]'s catchers, the [i]-th as
    [{name: "GroupCatcher_<i>", respondsTo: "catch", callback}]. This is
    all a returning call does, and it returns exactly when the route can
    be spread and its [handlers] iterated: the routes collected so far
    stay, the other properties of the route are kept, the store is as
    before. *)
Theorem appendToRoutes_chain_order :
  forall (h h' : heap) (this : loc) (g : Group) (routes routes' : list value)
         (route : value),
    h !! this = Some g ->
    let chain_of own :=
      middlewares_before g ++ own ++ middlewares_after g ++
      imap (fun i catcher =>
              VObject [("name", VString ("GroupCatcher_" +:+ index_string i));
                       ("respondsTo", VString "catch");
                       ("callback", catcher)]) (catchers g) in
    appendToRoutes this routes route h = (h', Return routes') <->
    exists props own wrapped,
      own_props route = Return props /\
      (let? handlers := get_prop route "handlers" in
       iterate "route.handlers" handlers) = Return own /\
      h' = h /\ routes' = routes ++ [wrapped] /\
      wrapped = VObject (set_prop "handlers" (VArray (chain_of own)) props) /\
      get_prop wrapped "handlers" = Return (VArray (chain_of own)) /\
      (forall name, name <> "handlers" ->
         get_prop wrapped name = Return (lookup_prop name props)).
Proof.
  intros h h' this g routes routes' route Hg chain_of. split.
  - unfold appendToRoutes.
    rewrite bind_lift. destruct (own_props route) as [props| |]; [|done..].
    rewrite (bind_load _ _ _ _ Hg), bind_lift.
    destruct (get_prop route "handlers") as [handlers| |] eqn:Hh; [|done..].
    rewrite bind_lift.
    destruct (iterate "route.handlers" handlers) as [own| |] eqn:Hown; [|done..].
    intros [= <- <-]. exists props, own. eexists.
    repeat split; try done; simpl.
    + by rewrite lookup_set_prop_eq.
    + intros name Hne. by rewrite lookup_set_prop_ne.
  - intros (props & own & wrapped & Hprops & Hown & -> & -> & -> & _).
    by apply appendToRoutes_run.
Qed.

Lemma appendToRoutes_chain_order_witness :
  let fn := VFunction "function fn() {}" [] in
  let c1 := VFunction "function c1() {}" [] in
  let c2 := VFunction "function c2() {}" [] in
  let g := mkGroup [c1; c2] [VString "a1"; VString "a2"] [VString "b2"; VString "b1"] [] in
  let route := VObject [("type", VString "route"); ("path", VString "/x");
                        ("handlers", VArray [handler_of_callback fn])] in
  exists props own wrapped,
    own_props route = Return props /\
    own = [handler_of_callback fn] /\
    appendToRoutes 0 [] route [g] = ([g], Return [wrapped]) /\
    get_prop wrapped "handlers" =
      Return (VArray [VString "b2"; VString "b1"; handler_of_callback fn;
                      VString "a1"; VString "a2";
                      VObject [("name", VString "GroupCatcher_0");
                               ("respondsTo", VString "catch"); ("callback", c1)];
                      VObject [("name", VString "GroupCatcher_1");
                               ("respondsTo", VString "catch"); ("callback", c2)]]).
Proof.
  intros fn c1 c2 g route.
  destruct (proj1 (appendToRoutes_chain_order [g] [g] 0 g [] _ route eq_refl) eq_refl)
    as (props & own & wrapped & Hprops & Hown & _ & Hroutes & _ & Hhandlers & _).
  injection Hown as <-. injection Hroutes as <-.
  exists props, [handler_of_callback fn]. eexists.
  split; [exact Hprops|]. split; [reflexivity|].
  split; [reflexivity | exact Hhandlers].
Defined.

(** ** Before and after middleware *)

(** C7: [before(m)] prepends [m] to the before list and [after(m)]
    appends [m] to the after list, leaving everything else as it was; so
    after [before(m1)] then [before(m2)] the chain of every route the
    group collects starts [m2, m1], and after [after(m1)] then
    [after(m2)] it ends with [m1, m2] followed only by the group's
    catchers. *)
Theorem before_after_order :
  forall (h : heap) (this : loc) (g : Group) (m1 m2 : value),
    h !! this = Some g ->
    let before1 g m :=
      mkGroup (catchers g) (middlewares_after g) (m :: middlewares_before g) (items g) in
    let after1 g m :=
      mkGroup (catchers g) (middlewares_after g ++ [m]) (middlewares_before g) (items g) in
    (before this m1 h = (<[this := before1 g m1]> h, Return (VGroup this)) /\
     after this m1 h = (<[this := after1 g m1]> h, Return (VGroup this))) /\
    (let hb := <[this := before1 (before1 g m1) m2]> h in
     (before this m1 ;; before this m2) h = (hb, Return (VGroup this)) /\
     forall fuel h' routes,
       collectRoutes fuel this hb = (h', Return routes) ->
       Forall (fun route => exists rest,
                 get_prop route "handlers" = Return (VArray (m2 :: m1 :: rest))) routes) /\
    (let ha := <[this := after1 (after1 g m1) m2]> h in
     (after this m1 ;; after this m2) h = (ha, Return (VGroup this)) /\
     forall fuel h' routes,
       collectRoutes fuel this ha = (h', Return routes) ->
       Forall (fun route => exists front,
                 get_prop route "handlers" =
                 Return (VArray (front ++ [m1; m2] ++
                                 imap catcher_handler (catchers g)))) routes).
Proof.
  intros h this g m1 m2 Hg before1 after1.
  assert (this < List.length h) as Hlt by by eapply lookup_lt_Some.
  assert (forall g', (<[this := g']> h) !! this = Some g') as Hnew
    by (intros; by apply list_lookup_insert_eq).
  split; [|split].
  - unfold before, after. by rewrite !(bind_modify _ _ _ _ _ Hg).
  - split.
    + unfold before. rewrite (bind_run _ _ _ _ _ (bind_modify _ _ _ _ _ Hg)).
      simpl. rewrite (bind_modify _ _ _ _ _ (Hnew _)).
      by rewrite list_insert_insert_eq.
    + intros fuel h' routes Hrun.
      eapply Forall_impl; [eapply collectRoutes_wrapped; [apply Hnew|apply Hrun]|].
      intros route [own Hown]. rewrite Hown. unfold chain. simpl. eauto.
  - split.
    + unfold after. rewrite (bind_run _ _ _ _ _ (bind_modify _ _ _ _ _ Hg)).
      simpl. rewrite (bind_modify _ _ _ _ _ (Hnew _)).
      by rewrite list_insert_insert_eq.
    + intros fuel h' routes Hrun.
      eapply Forall_impl; [eapply collectRoutes_wrapped; [apply Hnew|apply Hrun]|].
      intros route [own Hown]. rewrite Hown. unfold chain. simpl.
      exists (middlewares_before g ++ own ++ middlewares_after g).
      by rewrite <- !app_assoc.
Qed.

Lemma before_after_order_witness :
  let b0 := VString "b0" in
  let a0 := VString "a0" in
  let m1 := VString "m1" in
  let m2 := VString "m2" in
  let c := VFunction "function c() {}" [] in
  let handler := handler_of_callback (VFunction "function fn() {}" []) in
  let route := VObject [("type", VString "route"); ("path", VString "/x");
                        ("handlers", VArray [handler])] in
  let g := mkGroup [c] [a0] [b0] [route] in
  (before 0 m1 ;; before 0 m2) [g] =
    ([mkGroup [c] [a0] [m2; m1; b0] [route]], Return (VGroup 0)) /\
  (after 0 m1 ;; after 0 m2) [g] =
    ([mkGroup [c] [a0; m1; m2] [b0] [route]], Return (VGroup 0)) /\
  Forall (fun route => exists rest,
            get_prop route "handlers" = Return (VArray (m2 :: m1 :: rest)))
    [VObject [("type", VString "route"); ("path", VString "/x");
              ("handlers", VArray [m2; m1; b0; handler; a0; catcher_handler 0 c])]] /\
  Forall (fun route => exists front,
            get_prop route "handlers" =
            Return (VArray (front ++ [m1; m2] ++ [catcher_handler 0 c])))
    [VObject [("type", VString "route"); ("path", VString "/x");
              ("handlers", VArray [b0; handler; a0; m1; m2; catcher_handler 0 c])]].
Proof.
  intros b0 a0 m1 m2 c handler route g.
  destruct (before_after_order [g] 0 g m1 m2 eq_refl)
    as (_ & (Hb & Hbefore) & (Ha & Hafter)).
  split; [exact Hb|]. split; [exact Ha|]. split.
  - exact (Hbefore 1 _ _ eq_refl).
  - exact (Hafter 1 _ _ eq_refl).
Defined.

(** ** Collection reads, and reads the same twice *)

(** C9: [collectRoutes] is a pure read of the tree. On every tree the
    call comes to an end (any fuel from the depth of the tree on gives
    the same outcome), it leaves the store, hence every group's items,
    before, after and catchers lists, as it found it, and a second call
    on the store the first one leaves has the same outcome: the same
    sequence of routes when the first returned one. *)
Theorem collectRoutes_pure_read :
  forall (d : nat) (h : heap) (this : loc) (fuel fuel' : nat),
    is_tree d h this = true -> d <= fuel -> d <= fuel' ->
    let first := collectRoutes fuel this h in
    let second := collectRoutes fuel' this first.1 in
    first.1 = h /\ second.1 = h /\ second.2 = first.2 /\
    cut_short first.2 = false /\
    (forall routes, first.2 = Return routes -> second = (h, Return routes)).
Proof.
  intros d h this fuel fuel' Ht Hfuel Hfuel' first second.
  assert (first.1 = h) as H1 by apply read_only_collectRoutes.
  assert (second = collectRoutes d this h) as H2.
  { subst second. rewrite H1. by apply collectRoutes_fuel. }
  assert (first = collectRoutes d this h) as H3 by by apply collectRoutes_fuel.
  assert (second.1 = h) as H4 by (rewrite H2; apply read_only_collectRoutes).
  repeat split; try done.
  - by rewrite H2, H3.
  - rewrite H3. by apply collectRoutes_cut_short.
  - intros routes Hr. rewrite H2, <- H3.
    by apply injective_projections.
Qed.

Lemma collectRoutes_pure_read_witness :
  let pb := VString "pb" in
  let cb := VString "cb" in
  let handler := handler_of_callback (VFunction "function handlerFn() {}" []) in
  let h :=
    [mkGroup [] [] [pb]
       [VObject [("type", VString "group"); ("path", VString "/child");
                 ("group", VGroup 1)]];
     mkGroup [] [] [cb]
       [VObject [("type", VString "route"); ("methods", VArray [VString "get"]);
                 ("path", VString "/leaf"); ("handlers", VArray [handler])]]] in
  let routes :=
    [VObject [("type", VString "route"); ("methods", VArray [VString "get"]);
              ("path", VString "/child/leaf");
              ("handlers", VArray [pb; cb; handler])]] in
  collectRoutes 2 0 h = (h, Return routes) /\
  collectRoutes 5 0 (collectRoutes 2 0 h).1 = (h, Return routes).
Proof.
  intros pb cb handler h routes.
  destruct (collectRoutes_pure_read 2 h 0 2 5 eq_refl) as (_ & _ & _ & _ & Hsame);
    [lia | lia |].
  split; [reflexivity|]. exact (Hsame routes eq_refl).
Defined.

(** ** A subgroup without a prefix *)

(** C10: [addGroup(group)], a [Group] instance as the only argument,
    does what [addGroup(null, group)] does: it is accepted, returns the
    group it was called on and appends the item
    [{type: "group", path: null, group}]. In collection that item puts
    nothing before the paths of the subgroup's routes: the path of each
    is the string of the route's own path, the same string when the path
    is one. *)
Theorem addGroup_sole_group :
  forall (h : heap) (this : loc) (g : Group) (child : loc),
    h !! this = Some g ->
    let item := VObject [("type", VString "group"); ("path", VNull);
                         ("group", VGroup child)] in
    addGroup this (VGroup child) VUndefined h = addGroup this VNull (VGroup child) h /\
    addGroup this (VGroup child) VUndefined h =
      (<[this := mkGroup (catchers g) (middlewares_after g) (middlewares_before g)
                   (items g ++ [item])]> h,
       Return (VGroup this)) /\
    (forall subRoute,
       prefixed item subRoute =
       (let? copied := own_props subRoute in
        let? path := get_prop subRoute "path" in
        let? path' := ToString path in
        Return (VObject (set_prop "path" (VString path') copied)))) /\
    (forall props path,
       lookup_prop "path" props = VString path ->
       prefixed item (VObject props) =
       Return (VObject (set_prop "path" (VString path) props))).
Proof.
  intros h this g child Hg item.
  split; [done|]. split; [|split].
  - unfold addGroup, addGroup_checked. simpl.
    rewrite bind_ret. by rewrite (bind_modify _ _ _ _ _ Hg).
  - intros subRoute. unfold prefixed. by destruct (own_props subRoute).
  - intros props path Hpath. unfold prefixed. simpl. by rewrite Hpath.
Qed.

Lemma addGroup_sole_group_witness :
  let parent := mkGroup [] [] [] [] in
  let item := VObject [("type", VString "group"); ("path", VNull); ("group", VGroup 1)] in
  let leaf := VObject [("type", VString "route"); ("path", VString "/leaf");
                       ("handlers", VArray [])] in
  let child := mkGroup [] [] [] [leaf] in
  addGroup 0 (VGroup 1) VUndefined [parent; child] =
    ([mkGroup [] [] [] [item]; child], Return (VGroup 0)) /\
  prefixed item leaf = Return leaf /\
  collectRoutes 2 0 [mkGroup [] [] [] [item]; child] =
    ([mkGroup [] [] [] [item]; child], Return [leaf]).
Proof.
  intros parent item leaf child.
  destruct (addGroup_sole_group [parent; child] 0 parent 1 eq_refl)
    as (_ & Hadd & _ & Hpath).
  split; [exact Hadd|]. split; [|reflexivity].
  exact (Hpath [("type", VString "route"); ("path", VString "/leaf");
                ("handlers", VArray [])] "/leaf" eq_refl).
Defined.

(** * Further properties *)

(** ** Paths of subgroups *)

Lemma String_indexOf_slash (s : string) :
  (String_indexOf s "/" =? 0)%Z = starts_with_slash s.
Proof.
  unfold String_indexOf. destruct s as [|c s]; [done|].
  cbn [index String.prefix starts_with_slash].
  destruct (Ascii.ascii_dec "/" c) as [<-|Hne].
  - by destruct s.
  - assert (Ascii.eqb c "/" = false) as -> by (apply Ascii.eqb_neq; congruence).
    by destruct (index 0 "/" s).
Qed.

Lemma addGroup_checked_Return this path group h h' v :
  addGroup_checked this path group h = (h', Return v) ->
  exists g,
    h !! this = Some g /\
    h' = <[this := with_item g (group_item path group)]> h /\
    v = VGroup this.
Proof.
  unfold addGroup_checked.
  set (test := if is_nullish path then ret false
               else let* i := lift (indexOf_slash path) in ret (negb (i =? 0)%Z)).
  assert (read_only test) as Htest
    by (subst test; case_match; auto with read_only).
  rewrite (bind_run _ _ _ _ _ (read_only_run _ h Htest)).
  destruct (test h).2 as [[]| |]; [by intros ?%throw_new_not_Return| |done..].
  unfold bind, modify. destruct (h !! this) as [g|]; [|done].
  intros [= <- <-]. eauto.
Qed.

Lemma addGroup_string_path this s group h g :
  h !! this = Some g ->
  addGroup this (VString s) group h =
  if starts_with_slash s
  then (<[this := with_item g (group_item (VString s) group)]> h, Return (VGroup this))
  else (h, Throw (GroupError "InvalidHandlerSpecificationError"
                    (VString "path must either be null or start with /"))).
Proof.
  intros Hg. unfold addGroup, addGroup_checked. simpl.
  rewrite bind_assoc, bind_lift, bind_ret, String_indexOf_slash.
  destruct (starts_with_slash s); simpl; [|done].
  by rewrite (bind_modify _ _ _ _ _ Hg).
Qed.

(** X1: [addGroup] with a string for a path accepts it exactly when its
    first character is the slash, and then appends the group item and
    returns the receiver; any other string, the empty one too, is
    refused with [InvalidHandlerSpecificationError] and the store is left
    as it was. A path of [null] or [undefined] is accepted as it is. The
    second argument is stored without a look at it. *)
Theorem addGroup_path_rule :
  forall (h : heap) (this : loc) (g : Group) (group : value),
    h !! this = Some g ->
    (forall s,
       addGroup this (VString s) group h =
       if starts_with_slash s
       then (<[this := with_item g (group_item (VString s) group)]> h,
             Return (VGroup this))
       else (h, Throw (GroupError "InvalidHandlerSpecificationError"
                         (VString "path must either be null or start with /")))) /\
    (forall path,
       is_nullish path = true ->
       addGroup this path group h =
       (<[this := with_item g (group_item path group)]> h, Return (VGroup this))).
Proof.
  intros h this g group Hg. split.
  - intros s. by apply addGroup_string_path.
  - intros path Hnull. unfold addGroup, addGroup_checked.
    destruct path; try done; simpl; by rewrite bind_ret, (bind_modify _ _ _ _ _ Hg).
Qed.

Lemma addGroup_path_rule_witness :
  let g := mkGroup [] [] [] [] in
  let child := VGroup 1 in
  addGroup 0 (VString "/api") child [g; g] =
    ([with_item g (group_item (VString "/api") child); g], Return (VGroup 0)) /\
  addGroup 0 (VString "api") child [g; g] =
    ([g; g], Throw (GroupError "InvalidHandlerSpecificationError"
                      (VString "path must either be null or start with /"))) /\
  addGroup 0 (VString "") child [g; g] =
    ([g; g], Throw (GroupError "InvalidHandlerSpecificationError"
                      (VString "path must either be null or start with /"))) /\
  addGroup 0 VUndefined child [g; g] =
    ([with_item g (group_item VUndefined child); g], Return (VGroup 0)).
Proof.
  intros g child.
  destruct (addGroup_path_rule [g; g] 0 g child eq_refl) as [Hstring Hnull].
  split; [exact (Hstring "/api")|]. split; [exact (Hstring "api")|].
  split; [exact (Hstring "")|]. exact (Hnull VUndefined eq_refl).
Defined.

(** X2: [addGroup] accepts a call that names no group, such as
    [addGroup("/x")]: the missing group is stored in the item. The
    failure comes at collection: from then on [collectRoutes] on the
    receiver never returns. *)
Theorem addGroup_without_group :
  forall (this : loc) (path group : value) (h h' : heap) (v : value),
    instanceof_Group path = false ->
    is_nullish group = true ->
    addGroup this path group h = (h', Return v) ->
    forall fuel h2 routes, collectRoutes fuel this h' <> (h2, Return routes).
Proof.
  intros this path group h h' v Hpath Hgroup Hrun fuel h2 routes.
  unfold addGroup in Hrun. rewrite Hpath in Hrun. simpl in Hrun.
  apply addGroup_checked_Return in Hrun as (g & Hg & -> & _).
  destruct fuel as [|fuel]; [done|]. simpl.
  assert (this < List.length h) as Hlt by by eapply lookup_lt_Some.
  rewrite (bind_load _ _ _ _ (list_lookup_insert_eq _ _ _ Hlt)). simpl.
  rewrite fold_M_app. unfold bind at 1.
  destruct (fold_M _ _ (items g) _) as [h3 [acc| |]]; [|done..].
  simpl. unfold bind at 1, collect_item. rewrite bind_lift. simpl.
  rewrite bind_lift. simpl. by destruct group.
Qed.

Lemma addGroup_without_group_witness :
  let g := mkGroup [] [] [] [] in
  let h' := [with_item g (group_item (VString "/x") VUndefined)] in
  addGroup 0 (VString "/x") VUndefined [g] = (h', Return (VGroup 0)) /\
  collectRoutes 1 0 h' = (h', Throw (TypeError (NullishRead "collectRoutes"))) /\
  collectRoutes 1 0 h' <> (h', Return []).
Proof.
  intros g h'. split; [reflexivity|]. split; [reflexivity|].
  exact (addGroup_without_group 0 (VString "/x") VUndefined [g] h' (VGroup 0)
           eq_refl eq_refl eq_refl 1 h' []).
Defined.

(** X3: [addGroup] does not refuse a group as its own subgroup. Once it
    is one, [collectRoutes] on it calls itself without end: no amount of
    fuel brings back routes. *)
Theorem addGroup_self_never_collects :
  forall (this : loc) (path : value) (h h' : heap) (v : value),
    addGroup this path (VGroup this) h = (h', Return v) ->
    forall fuel h2 routes, collectRoutes fuel this h' <> (h2, Return routes).
Proof.
  intros this path h h' v Hrun fuel.
  unfold addGroup in Hrun. rewrite andb_false_r in Hrun.
  apply addGroup_checked_Return in Hrun as (g & Hg & -> & _).
  assert (this < List.length h) as Hlt by by eapply lookup_lt_Some.
  induction fuel as [|fuel IH]; intros h2 routes; [done|]. simpl.
  rewrite (bind_load _ _ _ _ (list_lookup_insert_eq _ _ _ Hlt)). simpl.
  rewrite fold_M_app.
  match goal with |- bind ?m _ _ <> _ => set (front := m) end.
  assert (read_only front) as Hfront.
  { subst front. apply read_only_fold_M. intros acc x.
    apply read_only_collect_item, read_only_collectRoutes. }
  rewrite (bind_run _ _ _ _ _ (read_only_run _ _ Hfront)).
  destruct (front _).2 as [acc| |]; [|done..].
  simpl. unfold bind at 1, collect_item. rewrite bind_lift. simpl.
  rewrite bind_lift. simpl. unfold bind.
  destruct (collectRoutes fuel this _) as [h3 [subRoutes| |]]; [|done..].
  by destruct (IH h3 subRoutes).
Qed.

Lemma addGroup_self_never_collects_witness :
  let g := mkGroup [] [] [] [] in
  let h' := [with_item g (group_item VNull (VGroup 0))] in
  addGroup 0 VNull (VGroup 0) [g] = (h', Return (VGroup 0)) /\
  collectRoutes 7 0 h' = (h', Stuck OutOfFuel) /\
  collectRoutes 7 0 h' <> (h', Return []).
Proof.
  intros g h'. split; [reflexivity|]. split; [reflexivity|].
  exact (addGroup_self_never_collects 0 VNull [g] h' (VGroup 0) eq_refl 7 h' []).
Defined.

(** ** What [addHandlers] accepts *)









(** ** What a call leaves alone *)

Lemma preserves_read_only (R : heap -> heap -> Prop) `{!Reflexive R} {A} (m : M A) :
  read_only m -> preserves R m.
Proof. intros Hm h. by rewrite Hm. Qed.

Lemma preserves_bind (R : heap -> heap -> Prop) `{!Transitive R} {A B}
    (m : M A) (k : A -> M B) :
  preserves R m -> (forall a, preserves R (k a)) -> preserves R (bind m k).
Proof.
  intros Hm Hk h. unfold bind. specialize (Hm h).
  destruct (m h) as [h1 [a| |]]; simpl in *; [|done..].
  etrans; [done|]. apply Hk.
Qed.

Lemma preserves_modify (R : heap -> heap -> Prop) `{!Reflexive R} l f :
  (forall h g, h !! l = Some g -> R h (<[l := f g]> h)) ->
  preserves R (modify l f).
Proof. intros Hf h. unfold modify. destruct (h !! l) eqn:E; simpl; auto. Qed.

Lemma preserves_for_of (R : heap -> heap -> Prop) `{!Reflexive R} `{!Transitive R}
    {A} (l : list A) (body : A -> M unit) :
  (forall x, preserves R (body x)) -> preserves R (for_of l body).
Proof.
  intros Hb. induction l as [|x l IH]; simpl.
  - by apply preserves_read_only, read_only_ret.
  - by apply preserves_bind.
Qed.

Lemma grows_refl g : grows g g.
Proof.
  split; [done|]. split; [by exists []; rewrite app_nil_r|].
  split; [by exists []; rewrite app_nil_r|by exists []].
Qed.

Lemma grows_trans g1 g2 g3 : grows g1 g2 -> grows g2 g3 -> grows g1 g3.
Proof.
  intros (Hc & (i & Hi & Hbi) & [a Ha] & [b Hb])
         (Hc' & (i' & Hi' & Hbi') & [a' Ha'] & [b' Hb']).
  split; [|split; [|split]].
  - congruence.
  - exists (i ++ i'). rewrite Hi', Hi, app_assoc, forallb_app, Hbi, Hbi'. done.
  - exists (a ++ a'). by rewrite Ha', Ha, app_assoc.
  - exists (b' ++ b). by rewrite Hb', Hb, app_assoc.
Qed.

#[local] Instance extends_refl this : Reflexive (extends this).
Proof.
  intros h. split; [done|]. split; [done|].
  intros g Hg. exists g. split; [done|apply grows_refl].
Qed.

#[local] Instance extends_trans this : Transitive (extends this).
Proof.
  intros h1 h2 h3 (Hl & Ho & Ht) (Hl' & Ho' & Ht'). split; [|split].
  - congruence.
  - intros l Hne. by rewrite Ho', Ho.
  - intros g Hg. destruct (Ht g Hg) as (g2 & Hg2 & Hgrow).
    destruct (Ht' g2 Hg2) as (g3 & Hg3 & Hgrow').
    exists g3. split; [done|]. by eapply grows_trans.
Qed.

Lemma extends_modify this f :
  (forall g, grows g (f g)) -> preserves (extends this) (modify this f).
Proof.
  intros Hf. apply preserves_modify; [apply _|]. intros h g Hg.
  assert (this < List.length h) as Hlt by by eapply lookup_lt_Some.
  split; [|split].
  - by rewrite length_insert.
  - intros l Hne. by rewrite list_lookup_insert_ne.
  - intros g0 Hg0. exists (f g). rewrite list_lookup_insert_eq by done.
    split; [done|]. by replace g0 with g by congruence.
Qed.

Ltac solve_grows :=
  intros ?; unfold grows; simpl; split; [reflexivity|];
  split; [first [ by exists []; rewrite app_nil_r | by eexists ]|];
  split; first [ by exists []; rewrite ?app_nil_r | by eexists | by eexists [_] ].

Ltac solve_extends :=
  repeat first
    [ apply extends_modify; solve_grows
    | apply preserves_read_only;
        [apply _ | solve [auto using @read_only_throw_new with read_only]]
    | apply preserves_bind; [apply _ | | intros ?] ].

Lemma read_only_addHandlers_test path :
  read_only (if negb (String.eqb (typeof path) "string") then ret false
             else let* i := lift (indexOf_slash path) in ret (i =? 0)%Z).
Proof. case_match; auto with read_only. Qed.

Lemma read_only_addGroup_test path :
  read_only (if is_nullish path then ret false
             else let* i := lift (indexOf_slash path) in ret (negb (i =? 0)%Z)).
Proof. case_match; auto with read_only. Qed.

Lemma extends_addGroup_checked this path group :
  preserves (extends this) (addGroup_checked this path group).
Proof.
  unfold addGroup_checked.
  apply preserves_bind; [apply _| |].
  { apply preserves_read_only; [apply _|apply read_only_addGroup_test]. }
  intros []; solve_extends.
Qed.

Lemma extends_addHandlers_array this methods path handlers :
  preserves (extends this) (addHandlers_array this methods path handlers).
Proof.
  unfold addHandlers_array.
  apply preserves_bind; [apply _| |].
  { apply preserves_read_only; [apply _|apply read_only_addHandlers_test]. }
  intros []; simpl; [|solve_extends].
  destruct (List.length methods =? 0)%nat; [solve_extends|].
  apply preserves_bind; [apply _| |].
  { apply preserves_read_only; [apply _|]. apply read_only_for_of. intros method.
    repeat case_match; auto using @read_only_throw_new with read_only. }
  intros _. destruct (List.length handlers =? 0)%nat; [solve_extends|].
  apply preserves_bind; [apply _| |].
  { apply preserves_read_only; [apply _|]. apply read_only_map_M. intros handler.
    apply read_only_bind; [|auto with read_only].
    apply read_only_for_of, read_only_check_handler. }
  intros mapped. solve_extends.
Qed.

Lemma run_call_extends this c : preserves (extends this) (run_call this c).
Proof.
  destruct c as [path group | methods path handler | methods path handlers
                | middleware | middleware | middleware | callback]; simpl.
  - unfold addGroup. case_match; apply extends_addGroup_checked.
  - unfold addHandler, addHandlers.
    repeat case_match; apply extends_addHandlers_array.
  - unfold addHandlers. repeat case_match; apply extends_addHandlers_array.
  - unfold after. solve_extends.
  - unfold around, after, before. solve_extends.
  - unfold before. solve_extends.
  - unfold catch. case_match; solve_extends.
Qed.

(** X5: a call on a group changes no other group and makes none; of
    the receiver it leaves the catchers as they are and only adds: items
    and after middleware at the end, before middleware at the front.
    The items it adds are tagged ["group"] or ["handler"]. This holds
    however the call ends. *)
Theorem builder_call_frame :
  forall (this : loc) (c : builder_call) (h : heap),
    let h' := (run_call this c h).1 in
    List.length h' = List.length h /\
    (forall l, l <> this -> h' !! l = h !! l) /\
    (forall g, h !! this = Some g ->
       exists g', h' !! this = Some g' /\
         catchers g' = catchers g /\
         (exists more, items g' = items g ++ more /\ forallb builder_item more = true) /\
         (exists more, middlewares_after g' = middlewares_after g ++ more) /\
         (exists more, middlewares_before g' = more ++ middlewares_before g)).
Proof. intros this c h. apply run_call_extends. Qed.

Lemma builder_call_frame_witness :
  let g0 := mkGroup [] [VString "a"] [VString "b"] [] in
  let g1 := mkGroup [] [] [] [] in
  let pair := VObject [("before", VString "b'"); ("after", VString "a'")] in
  let h' := (run_call 0 (CallAround pair) [g0; g1]).1 in
  h' = [mkGroup [] [VString "a"; VString "a'"] [VString "b'"; VString "b"] []; g1] /\
  h' !! 1 = [g0; g1] !! 1 /\
  exists g', h' !! 0 = Some g' /\ catchers g' = catchers g0.
Proof.
  intros g0 g1 pair h'.
  destruct (builder_call_frame 0 (CallAround pair) [g0; g1]) as (_ & Hother & Hthis).
  split; [reflexivity|]. split; [apply Hother; lia|].
  destruct (Hthis g0 eq_refl) as (g' & Hg' & Hc & _). exists g'. by split.
Defined.

(** ** Failing calls *)








(** ** The errors a call can end in *)

Lemma throws_only_bind (P : error -> Prop) {A B} (m : M A) (k : A -> M B) :
  throws_only P m -> (forall a, throws_only P (k a)) -> throws_only P (bind m k).
Proof.
  intros Hm Hk h h' e. unfold bind.
  destruct (m h) as [h1 [a| |]] eqn:E; [apply Hk| |done].
  intros [= <- <-]. by eapply Hm.
Qed.

Lemma throws_only_ret (P : error -> Prop) {A} (a : A) : throws_only P (ret a).
Proof. by intros h h' e. Qed.

Lemma throws_only_throw (P : error -> Prop) {A} (e : error) :
  P e -> throws_only P (@throw A e).
Proof. by intros He h h' e' [= _ <-]. Qed.

Lemma throws_only_lift (P : error -> Prop) {A} (o : outcome A) :
  (forall e, o = Throw e -> P e) -> throws_only P (lift o).
Proof. intros Ho h h' e [= _ ->]. by apply Ho. Qed.

Lemma throws_only_load (P : error -> Prop) l : throws_only P (load l).
Proof. intros h h' e. unfold load. by destruct (h !! l). Qed.

Lemma throws_only_modify (P : error -> Prop) l f : throws_only P (modify l f).
Proof. intros h h' e. unfold modify. by destruct (h !! l). Qed.

Lemma throws_only_for_of (P : error -> Prop) {A} (l : list A) (body : A -> M unit) :
  (forall x, throws_only P (body x)) -> throws_only P (for_of l body).
Proof.
  intros Hb. induction l as [|x l IH]; simpl;
    [apply throws_only_ret|by apply throws_only_bind].
Qed.

Lemma throws_only_map_M (P : error -> Prop) {A B} (f : A -> M B) (l : list A) :
  (forall x, throws_only P (f x)) -> throws_only P (map_M f l).
Proof.
  intros Hf. induction l as [|x l IH]; simpl; [apply throws_only_ret|].
  apply throws_only_bind; [done|]. intros y.
  apply throws_only_bind; [done|]. intros ys. apply throws_only_ret.
Qed.


Lemma throw_new_of_the_table {A} kind arg :
  throws_only of_the_table (@throw_new A kind arg).
Proof.
  unfold throw_new. destruct (existsb _ _) eqn:E; apply throws_only_throw; [|done].
  simpl in *. rewrite !orb_true_iff in E.
  destruct E as [E|[E|E]]; [left|right|done]; by apply String.eqb_eq in E.
Qed.

Lemma get_prop_Throw v name e : get_prop v name = Throw e -> exists c, e = TypeError c.
Proof. destruct v; simpl; repeat case_match; try done; intros [= <-]; eauto. Qed.

Lemma iterate_Throw what v e : iterate what v = Throw e -> exists c, e = TypeError c.
Proof. destruct v; simpl; try done; intros [= <-]; eauto. Qed.

Lemma own_props_Throw v e : own_props v <> Throw e.
Proof. by destruct v. Qed.

Lemma indexOf_slash_Throw path e :
  indexOf_slash path = Throw e -> exists c, e = TypeError c.
Proof. destruct path; simpl; repeat case_match; try done; intros [= <-]; eauto. Qed.

Lemma ToString_Throw v e : ToString v <> Throw e.
Proof.
  induction v as [| | [] | | source props _ | props _ | elems Hall | ]
    using value_nested_ind; simpl; try done; try (by case_match).
  induction Hall as [|x l Hx Hl IH]; [done|].
  assert (match x with
          | VUndefined | VNull => Return ""
          | _ => ToString x
          end <> Throw e) as Hfirst by (by destruct x).
  destruct (match x with VUndefined | VNull => Return "" | _ => ToString x end)
    as [s|err|w]; simpl in *; try done.
  destruct l as [|x' l']; [done|].
  simpl in IH |- *.
  match goal with |- obind ?j _ <> _ => destruct j as [r|err|w] end;
    simpl in *; done.
Qed.

Ltac solve_throws_with new :=
  repeat first
    [ new
    | apply throws_only_ret
    | apply throws_only_modify
    | apply throws_only_load
    | apply throws_only_throw; done
    | apply throws_only_lift;
        first [ by intros ? (? & ->)%get_prop_Throw
              | by intros ? (? & ->)%indexOf_slash_Throw
              | by intros ? (? & ->)%iterate_Throw
              | by intros ? ?%ToString_Throw
              | by intros ? ?%own_props_Throw
              | done ]
    | apply throws_only_for_of; intros ?
    | apply throws_only_map_M; intros ?
    | apply throws_only_bind; [|intros ?]
    | case_match ].

Ltac solve_throws := solve_throws_with ltac:(apply throw_new_of_the_table).

Lemma check_handler_of_the_table handler : throws_only of_the_table (check_handler handler).
Proof. unfold check_handler. solve_throws. Qed.

Lemma addHandlers_array_of_the_table this methods path handlers :
  throws_only of_the_table (addHandlers_array this methods path handlers).
Proof.
  unfold addHandlers_array, check_handler. solve_throws.
Qed.

(** X7: of the errors of its own making a call throws two kinds only,
    those [Group.errors] holds: [InvalidCatchError], and that from
    [catch] alone, and [InvalidHandlerSpecificationError]. No call ever
    throws an [InvalidPathError], [InvalidMethodsError],
    [InvalidMethodError], [InvalidHandlersError] or
    [HandlerCannotBeGroupError]: where the code means to, the caller gets
    a [TypeError]. *)
Theorem builder_call_error_kinds :
  forall (this : loc) (c : builder_call) (h h' : heap) (kind : string) (arg : value),
    run_call this c h = (h', Throw (GroupError kind arg)) ->
    (kind = "InvalidCatchError" /\ exists callback, c = CallCatch callback) \/
    kind = "InvalidHandlerSpecificationError".
Proof.
  intros this c h h' kind arg Hrun.
  destruct c as [path grp | methods path handler | methods path handlers
                | middleware | middleware | middleware | callback].
  7:{ assert (throws_only of_the_table (run_call this (CallCatch callback))) as Hcall
        by (simpl; unfold catch; solve_throws).
      destruct (Hcall _ _ _ Hrun) as [-> | ->]; [left; eauto|by right]. }
  all: right.
  all: match type of Hrun with run_call ?t ?c _ = _ =>
         assert (throws_only
                   (fun e => match e with
                             | GroupError k _ => k = "InvalidHandlerSpecificationError"
                             | _ => True
                             end) (run_call t c)) as Hcall
       end.
  all: try exact (Hcall _ _ _ Hrun).
  all: simpl;
    unfold addGroup, addGroup_checked, addHandler, addHandlers, addHandlers_array,
      check_handler, after, around, before;
    solve_throws_with
      ltac:(unfold throw_new; simpl; apply throws_only_throw; done).
Qed.

Lemma builder_call_error_kinds_witness :
  let g := mkGroup [] [] [] [] in
  run_call 0 (CallAddHandlers (VArray [VString "get"]) (VString "/x") [VGroup 0]) [g] =
    ([g], Throw (TypeError (NotAConstructor "Group.errors.HandlerCannotBeGroupError"))) /\
  run_call 0 (CallAddHandlers (VArray [VString " "]) (VString "/x") [VNull]) [g] =
    ([g], Throw (TypeError (NotAConstructor "Group.errors.InvalidMethodError"))) /\
  run_call 0 (CallAddGroup (VString "x") (VGroup 0)) [g] =
    ([g], Throw (GroupError "InvalidHandlerSpecificationError"
                   (VString "path must either be null or start with /"))) /\
  ("InvalidHandlerSpecificationError" = "InvalidCatchError" /\
   (exists callback, CallAddGroup (VString "x") (VGroup 0) = CallCatch callback) \/
   "InvalidHandlerSpecificationError" = "InvalidHandlerSpecificationError").
Proof.
  intros g. split; [reflexivity|]. split; [reflexivity|]. split; [reflexivity|].
  exact (builder_call_error_kinds 0 (CallAddGroup (VString "x") (VGroup 0)) [g] [g]
           "InvalidHandlerSpecificationError"
           (VString "path must either be null or start with /") eq_refl).
Defined.






(** ** What the builder can bring to collection *)









(** ** Collection as a function of the tree *)

Lemma is_route_wrap g route : is_route route = true -> is_route (wrap g route) = true.
Proof.
  destruct route as [| | | | |props| |]; try done. simpl.
  destruct (lookup_prop "path" props) eqn:Hp; try done.
  destruct (lookup_prop "handlers" props) eqn:Hh; try done.
  intros _. simpl. by rewrite lookup_set_prop_eq, lookup_set_prop_ne, Hp.
Qed.

Lemma is_route_with_prefix prefix route :
  is_route route = true -> is_route (with_prefix prefix route) = true.
Proof.
  destruct route as [| | | | |props| |]; try done. simpl.
  destruct (lookup_prop "path" props) eqn:Hp; try done.
  destruct (lookup_prop "handlers" props) eqn:Hh; try done.
  intros _. simpl. by rewrite lookup_set_prop_eq, lookup_set_prop_ne, Hh.
Qed.

Lemma route_item_is_route item : route_item item = true -> is_route item = true.
Proof.
  destruct item as [| | | | |props| |]; try done. simpl.
  by intros [_ ?]%andb_true_iff.
Qed.

Lemma routes_of_is_route d : forall h this,
  Forall (fun route => is_route route = true) (routes_of d h this).
Proof.
  induction d as [|d IH]; intros h this; simpl; [done|].
  destruct (h !! this) as [g|]; [|done].
  apply Forall_flat_map, Forall_forall. intros item _.
  destruct (route_item item) eqn:Hitem.
  - constructor; [|done]. by apply is_route_wrap, route_item_is_route.
  - repeat case_match; try done. apply Forall_fmap, Forall_forall.
    intros route Hroute. simpl. apply is_route_wrap, is_route_with_prefix.
    by eapply (proj1 (Forall_forall _ _) (IH h _)).
Qed.

Lemma appendToRoutes_is_route this routes route h g :
  h !! this = Some g -> is_route route = true ->
  appendToRoutes this routes route h = (h, Return (routes ++ [wrap g route])).
Proof.
  intros Hg Hroute. destruct route as [| | | | |props| |]; try done. simpl in *.
  destruct (lookup_prop "path" props); try done.
  destruct (lookup_prop "handlers" props) as [| | | | | |own|] eqn:Hh; try done.
  apply appendToRoutes_run; [done..|]. simpl. by rewrite Hh.
Qed.

Lemma prefixed_with_prefix item prefix route :
  prefix_of item = Some prefix -> is_route route = true ->
  prefixed item route = Return (with_prefix prefix route).
Proof.
  unfold prefix_of, prefixed. intros Hp Hroute.
  destruct route as [| | | | |props| |]; try done. simpl in *.
  destruct (lookup_prop "path" props) as [| | |path| | | |]; try done.
  destruct (get_prop item "path") as [[| | |s| | | |]| |]; try done;
    injection Hp as <-; try done.
  by destruct s.
Qed.

Lemma collect_subRoutes item prefix this g h subRoutes : forall routes,
  h !! this = Some g ->
  prefix_of item = Some prefix ->
  Forall (fun route => is_route route = true) subRoutes ->
  fold_M (fun routes subRoute =>
            let* route := lift (prefixed item subRoute) in
            appendToRoutes this routes route) routes subRoutes h =
  (h, Return (routes ++ map (fun route => wrap g (with_prefix prefix route)) subRoutes)).
Proof.
  intros routes Hg Hp Hall. revert routes.
  induction Hall as [|route subRoutes Hroute _ IH]; intros routes; simpl.
  - by rewrite app_nil_r.
  - rewrite bind_assoc, bind_lift, (prefixed_with_prefix _ _ _ Hp Hroute).
    rewrite (bind_run _ _ _ _ _
               (appendToRoutes_is_route this routes _ h g Hg
                  (is_route_with_prefix prefix route Hroute))).
    by rewrite IH, <- app_assoc.
Qed.

Lemma collectRoutes_routable :
  forall (d fuel : nat) (h : heap) (this : loc),
    routable d h this = true -> d <= fuel ->
    collectRoutes fuel this h = (h, Return (routes_of d h this)).
Proof.
  induction d as [|d IH]; intros fuel h this Hr Hle; [done|].
  destruct fuel as [|fuel]; [lia|]. simpl in *.
  destruct (h !! this) as [g|] eqn:Hg; [|done].
  rewrite (bind_load _ _ _ _ Hg).
  enough (forall routes,
            fold_M (collect_item (collectRoutes fuel) this) routes (items g) h =
            (h, Return (routes ++
               flat_map (fun item =>
                 if route_item item then [wrap g item]
                 else match subgroup_of item, prefix_of item with
                      | Some child, Some prefix =>
                          map (fun route => wrap g (with_prefix prefix route))
                            (routes_of d h child)
                      | _, _ => []
                      end) (items g)))) as Hfold by apply (Hfold []).
  revert Hr. generalize (items g). intros l.
  induction l as [|item l IHl]; intros Hl routes; simpl.
  - by rewrite app_nil_r.
  - simpl in Hl. apply andb_true_iff in Hl as [Hitem Hl].
    enough (collect_item (collectRoutes fuel) this routes item h =
            (h, Return (routes ++
               (if route_item item then [wrap g item]
                else match subgroup_of item, prefix_of item with
                     | Some child, Some prefix =>
                         map (fun route => wrap g (with_prefix prefix route))
                           (routes_of d h child)
                     | _, _ => []
                     end)))) as Hstep.
    { rewrite (bind_run _ _ _ _ _ Hstep), IHl by done. by rewrite <- app_assoc. }
    destruct (route_item item) eqn:Hroute.
    + pose proof (route_item_is_route _ Hroute) as Hisr.
      destruct item as [| | | | |props| |]; try done. simpl in Hroute.
      apply andb_true_iff in Hroute as [Htype _].
      set (w := wrap g (VObject props)).
      unfold collect_item. rewrite bind_lift. simpl.
      destruct (lookup_prop "type" props) as [| | |t| | | |]; try done.
      simpl in Htype. apply String.eqb_eq in Htype as ->. simpl.
      subst w. by apply appendToRoutes_is_route.
    + simpl in Hitem. destruct item as [| | | | |props| |]; try done.
      destruct (subgroup_of (VObject props)) as [child|] eqn:Hsub; [|done].
      destruct (prefix_of (VObject props)) as [prefix|] eqn:Hp; [|done].
      unfold subgroup_of in Hsub. simpl in Hsub.
      unfold collect_item. rewrite bind_lift. simpl.
      destruct (is_string (lookup_prop "type" props) "group"); [|done].
      rewrite bind_lift. simpl.
      destruct (lookup_prop "group" props) as [| | | | | | |child']; try done.
      injection Hsub as ->.
      rewrite (bind_run _ _ _ _ _ (IH fuel h child Hitem ltac:(lia))).
      apply collect_subRoutes; [done..|apply routes_of_is_route].
Qed.

(** X10: on a tree of well-formed routes [collectRoutes] is the
    function [routes_of]: the routes come item by item, in the order of
    the items, a subgroup's routes in the place of its item (depth first,
    pre-order); a route item gives one route, a group item gives the
    routes of its subgroup with its prefix put before their paths as it
    stands; every route a group passes on is wrapped by that group, so a
    route from [n] groups down is wrapped [n] times, innermost group
    first. The call needs no more fuel than the depth of the tree and
    leaves the store as it is. *)
Theorem collectRoutes_routes_of :
  forall (d fuel : nat) (h : heap) (this : loc),
    routable d h this = true -> d <= fuel ->
    collectRoutes fuel this h = (h, Return (routes_of d h this)).
Proof. apply collectRoutes_routable. Qed.

Lemma collectRoutes_routes_of_witness :
  let route path name :=
    VObject [("type", VString "route"); ("path", VString path);
             ("handlers", VArray [VString name])] in
  let h :=
    [mkGroup [] [VString "after0"] [VString "before0"]
       [route "/a" "A"; group_item (VString "/v1") (VGroup 1); route "/b" "B"];
     mkGroup [] [] [VString "before1"]
       [route "/c" "C"; group_item VNull (VGroup 2)];
     mkGroup [] [VString "after2"] [] [route "/d" "D"]] in
  exists routes,
    collectRoutes 5 0 h = (h, Return routes) /\
    map (fun r => get_prop r "path") routes =
      [Return (VString "/a"); Return (VString "/v1/c"); Return (VString "/v1/d");
       Return (VString "/b")] /\
    map (fun r => get_prop r "handlers") routes =
      [Return (VArray [VString "before0"; VString "A"; VString "after0"]);
       Return (VArray [VString "before0"; VString "before1"; VString "C";
                       VString "after0"]);
       Return (VArray [VString "before0"; VString "before1"; VString "D";
                       VString "after2"; VString "after0"]);
       Return (VArray [VString "before0"; VString "B"; VString "after0"])].
Proof.
  intros route h. exists (routes_of 3 h 0).
  split; [|split; reflexivity].
  apply (collectRoutes_routes_of 3 5 h 0); [reflexivity|lia].
Defined.

(** X11: how two groups compose. For a parent that holds a child under
    the prefix [p], the child holding a route at [q] with handlers
    [own]: the one route collected from the parent has the path [p]
    followed by [q], nothing put between or taken away, and the handlers
    of the parent's before list, then the whole chain the child gives
    the route (its before list, [own], its after list, its catchers),
    then the parent's after list, then the parent's catchers. The
    child's catchers therefore come before the parent's after
    middleware. The other properties of the route are kept. *)
Theorem collectRoutes_two_levels :
  forall (pc pa pb cc ca cb : list value) (p q : string)
         (props : list (string * value)) (own : list value),
    lookup_prop "type" props = VString "route" ->
    lookup_prop "path" props = VString q ->
    lookup_prop "handlers" props = VArray own ->
    let parent := mkGroup pc pa pb [group_item (VString p) (VGroup 1)] in
    let child := mkGroup cc ca cb [VObject props] in
    exists route,
      collectRoutes 2 0 [parent; child] = ([parent; child], Return [route]) /\
      get_prop route "path" = Return (VString (p +:+ q)) /\
      get_prop route "handlers" =
        Return (VArray (pb ++
                        (cb ++ own ++ ca ++ imap catcher_handler cc) ++
                        pa ++ imap catcher_handler pc)) /\
      (forall name, name <> "path" -> name <> "handlers" ->
         get_prop route name = Return (lookup_prop name props)).
Proof.
  intros pc pa pb cc ca cb p q props own Htype Hpath Hown parent child.
  assert (route_item (VObject props) = true) as Hitem
    by (simpl; by rewrite Htype, Hpath, Hown).
  assert (routable 2 [parent; child] 0 = true) as Hr
    by (simpl; by rewrite Htype, Hpath, Hown).
  rewrite (collectRoutes_routable 2 2 _ 0 Hr) by lia.
  eexists. split.
  { simpl. rewrite Htype, Hpath, Hown. simpl.
    rewrite lookup_set_prop_ne, Hpath by done. unfold wrap.
    rewrite lookup_set_prop_ne, lookup_set_prop_eq by done. reflexivity. }
  simpl. split; [|split].
  - by rewrite lookup_set_prop_ne, lookup_set_prop_eq.
  - by rewrite lookup_set_prop_eq.
  - intros name Hn1 Hn2.
    by rewrite !lookup_set_prop_ne by done.
Qed.

Lemma collectRoutes_two_levels_witness :
  let c := VFunction "function c() {}" [] in
  let props := [("type", VString "route"); ("methods", VArray [VString "get"]);
                ("path", VString "/leaf"); ("handlers", VArray [VString "own"])] in
  let parent := mkGroup [] [VString "pa"] [VString "pb"]
                  [group_item (VString "/child/") (VGroup 1)] in
  let child := mkGroup [c] [VString "ca"] [VString "cb"] [VObject props] in
  exists route,
    collectRoutes 2 0 [parent; child] = ([parent; child], Return [route]) /\
    get_prop route "path" = Return (VString "/child//leaf") /\
    get_prop route "handlers" =
      Return (VArray [VString "pb"; VString "cb"; VString "own"; VString "ca";
                      catcher_handler 0 c; VString "pa"]) /\
    get_prop route "methods" = Return (VArray [VString "get"]).
Proof.
  intros c props parent child.
  destruct (collectRoutes_two_levels [] [VString "pa"] [VString "pb"]
              [c] [VString "ca"] [VString "cb"] "/child/" "/leaf" props
              [VString "own"] eq_refl eq_refl eq_refl)
    as (route & Hrun & Hpath & Hhandlers & Hother).
  exists route. split; [exact Hrun|]. split; [exact Hpath|].
  split; [exact Hhandlers|]. by apply Hother.
Defined.

(** ** Around middleware *)

(** X12: [around(m)] reads [m.before] and [m.after] and hands them to
    [before] and [after] without a look at them: a half that [m] lacks
    goes in as [undefined]. Only a [null] or [undefined] [m] is refused,
    by the [TypeError] of the first read, with nothing changed. Two
    calls nest: after [around(m1)] and [around(m2)] the before list
    starts with the half of [m2], then that of [m1], and the after list
    ends with the half of [m1], then that of [m2], so in every chain
    [m2] is the outer pair. *)
Theorem around_halves :
  forall (h : heap) (this : loc) (g : Group),
    h !! this = Some g ->
    let put g b a :=
      mkGroup (catchers g) (middlewares_after g ++ [a]) (b :: middlewares_before g)
        (items g) in
    (forall m b a,
       get_prop m "before" = Return b -> get_prop m "after" = Return a ->
       around this m h = (<[this := put g b a]> h, Return (VGroup this))) /\
    (forall m,
       is_nullish m = true ->
       around this m h = (h, Throw (TypeError (NullishRead "before")))) /\
    (forall m1 m2 b1 a1 b2 a2,
       get_prop m1 "before" = Return b1 -> get_prop m1 "after" = Return a1 ->
       get_prop m2 "before" = Return b2 -> get_prop m2 "after" = Return a2 ->
       (around this m1 ;; around this m2) h =
         (<[this := put (put g b1 a1) b2 a2]> h, Return (VGroup this)) /\
       forall own,
         chain (put (put g b1 a1) b2 a2) own =
         b2 :: b1 :: middlewares_before g ++ own ++ middlewares_after g ++
         [a1; a2] ++ imap catcher_handler (catchers g)).
Proof.
  intros h this g Hg put.
  assert (this < List.length h) as Hlt by by eapply lookup_lt_Some.
  assert (forall h g m b a,
            h !! this = Some g ->
            get_prop m "before" = Return b -> get_prop m "after" = Return a ->
            around this m h = (<[this := put g b a]> h, Return (VGroup this))) as Hone.
  { clear. intros h g m b a Hg Hb Ha.
    assert (this < List.length h) as Hlt by by eapply lookup_lt_Some.
    unfold around, before, after.
    rewrite bind_lift, Hb, bind_assoc, (bind_modify _ _ _ _ _ Hg), bind_ret.
    rewrite bind_lift, Ha, bind_assoc.
    rewrite (bind_modify _ _ _ _ _ (list_lookup_insert_eq _ _ _ Hlt)), bind_ret.
    by rewrite list_insert_insert_eq. }
  split; [|split].
  - intros m b a. by apply Hone.
  - intros m Hm. unfold around. rewrite bind_lift. by destruct m.
  - intros m1 m2 b1 a1 b2 a2 Hb1 Ha1 Hb2 Ha2. split.
    + rewrite (bind_run _ _ _ _ _ (Hone h g m1 b1 a1 Hg Hb1 Ha1)).
      rewrite (Hone _ (put g b1 a1) m2 b2 a2 (list_lookup_insert_eq _ _ _ Hlt) Hb2 Ha2).
      by rewrite list_insert_insert_eq.
    + intros own. unfold chain. simpl. by rewrite <- !app_assoc.
Qed.

Lemma around_halves_witness :
  let g := mkGroup [] [] [] [] in
  let m1 := VObject [("before", VString "b1"); ("after", VString "a1")] in
  let m2 := VObject [("before", VString "b2")] in
  (around 0 m1 ;; around 0 m2) [g] =
    ([mkGroup [] [VString "a1"; VUndefined] [VString "b2"; VString "b1"] []],
     Return (VGroup 0)) /\
  around 0 VUndefined [g] = ([g], Throw (TypeError (NullishRead "before"))).
Proof.
  intros g m1 m2.
  destruct (around_halves [g] 0 g eq_refl) as (_ & Hnull & Htwo).
  split; [|exact (Hnull VUndefined eq_refl)].
  exact (proj1 (Htwo m1 m2 (VString "b1") (VString "a1") (VString "b2") VUndefined
                  eq_refl eq_refl eq_refl eq_refl)).
Defined.

(** ** The first handler that does not pass *)




(** ** Subgroups made in place, with a callback *)

(** X14: [group(path, cb)] makes the new group and runs the callback on
    it before it looks at the path. With [h1] the store the callback
    leaves: when the path is a string that starts with the slash, the
    receiver, as the callback left it, gets the item for the new group
    and is returned; when the path is any other string the call throws
    [InvalidHandlerSpecificationError], the callback has run all the
    same and what it did stays, and the new group is attached nowhere.
    An error out of the callback comes out of [group] with nothing
    attached. *)
Theorem group_callback_then_path :
  forall (call : value -> list value -> M value) (this : loc) (s : string)
         (source : string) (props : list (string * value)) (h h1 : heap)
         (o : outcome value),
    let cb := VFunction source props in
    let child := List.length h in
    call cb [VGroup child] (h ++ [mkGroup [] [] [] []]) = (h1, o) ->
    (forall v g1,
       o = Return v -> starts_with_slash s = true -> h1 !! this = Some g1 ->
       group call this (VString s) cb h =
       (<[this := with_item g1 (group_item (VString s) (VGroup child))]> h1,
        Return (VGroup this))) /\
    (forall v,
       o = Return v -> starts_with_slash s = false ->
       group call this (VString s) cb h =
       (h1, Throw (GroupError "InvalidHandlerSpecificationError"
                     (VString "path must either be null or start with /")))) /\
    (forall e, o = Throw e -> group call this (VString s) cb h = (h1, Throw e)).
Proof.
  intros call this s source props h h1 o cb child Hcall.
  assert (forall k : loc -> M value,
            bind (new_Group call cb) k h =
            match o with
            | Return _ => k child h1
            | Throw e => (h1, Throw e)
            | Stuck w => (h1, Stuck w)
            end) as Hnew.
  { intros k. unfold new_Group, alloc. rewrite bind_assoc. unfold bind at 1.
    simpl. rewrite bind_assoc. fold child.
    rewrite (bind_run _ _ _ _ _ Hcall). by destruct o. }
  unfold group, group_checked. simpl. repeat split.
  - intros v g1 -> Hs Hg1. rewrite Hnew.
    pose proof (addGroup_string_path this s (VGroup child) h1 g1 Hg1) as Hpath.
    rewrite Hs in Hpath. by rewrite (bind_run _ _ _ _ _ Hpath).
  - intros v -> Hs. rewrite Hnew. unfold addGroup, addGroup_checked. simpl.
    rewrite !bind_assoc, bind_lift, bind_ret, String_indexOf_slash, Hs. done.
  - intros e ->. by rewrite Hnew.
Qed.

Lemma group_callback_then_path_witness :
  let call := fun (f : value) (args : list value) =>
                match args with
                | [VGroup l] => before l (VString "inner")
                | _ => ret VUndefined
                end in
  let cb := VFunction "child => child.before('inner')" [] in
  let g := mkGroup [] [] [] [] in
  let made := mkGroup [] [] [VString "inner"] [] in
  group call 0 (VString "/sub") cb [g] =
    ([with_item g (group_item (VString "/sub") (VGroup 1)); made], Return (VGroup 0)) /\
  group call 0 (VString "sub") cb [g] =
    ([g; made], Throw (GroupError "InvalidHandlerSpecificationError"
                         (VString "path must either be null or start with /"))).
Proof.
  intros call cb g made.
  destruct (group_callback_then_path call 0 "/sub" "child => child.before('inner')" []
              [g] [g; made] (Return (VGroup 1)) eq_refl) as (Hok & _ & _).
  destruct (group_callback_then_path call 0 "sub" "child => child.before('inner')" []
              [g] [g; made] (Return (VGroup 1)) eq_refl) as (_ & Hbad & _).
  split.
  - exact (Hok (VGroup 1) g eq_refl eq_refl eq_refl).
  - exact (Hbad (VGroup 1) eq_refl eq_refl).
Defined.

(** ** Catchers through the builder *)

Lemma no_catchers_exec_step (h : heap) (s : builder_step) :
  (forall l g, h !! l = Some g -> catchers g = []) ->
  forall l g, exec_step h s !! l = Some g -> catchers g = [].
Proof.
  intros Hh l g' Hl. destruct s as [|this c]; simpl in Hl.
  - apply lookup_app_Some in Hl as [Hl|[_ Hl]]; [by eapply Hh|].
    apply list_lookup_singleton_Some in Hl as [_ <-]. done.
  - destruct (run_call_extends this c h) as (Hlen & Hother & Hthis).
    destruct (decide (l = this)) as [->|Hne].
    + assert (is_Some (h !! this)) as [g Hg].
      { apply lookup_lt_is_Some. rewrite <- Hlen. by eapply lookup_lt_Some. }
      destruct (Hthis g Hg) as (g2 & Hg2 & Hc & _).
      replace g' with g2 by congruence. rewrite Hc. by eapply Hh.
    + rewrite Hother in Hl by done. by eapply Hh.
Qed.

(** X15: no program installs a catcher. On the store any program of
    [new Group()] and builder calls leaves, every group has an empty
    catchers list: [catch], the one method that is to add to it, never
    gets as far, and no other method writes it. So no handler named
    [GroupCatcher_<i>] can come from groups made this way. *)
Theorem builder_installs_no_catcher :
  forall (program : list builder_step) (l : loc) (g : Group),
    exec program [] !! l = Some g ->
    catchers g = [] /\ forall own, chain g own =
      middlewares_before g ++ own ++ middlewares_after g.
Proof.
  intros program l g Hl.
  assert (catchers g = []) as Hc.
  { revert l g Hl. unfold exec.
    assert (forall l g, @nil Group !! l = Some g -> catchers g = []) as Hnil by done.
    revert Hnil. generalize (@nil Group).
    induction program as [|s program IH]; intros h Hh l g Hl; simpl in *.
    - by eapply Hh.
    - eapply IH; [|exact Hl]. by apply no_catchers_exec_step. }
  split; [done|]. intros own. unfold chain. by rewrite Hc, app_nil_r.
Qed.

Lemma builder_installs_no_catcher_witness :
  let c := VFunction "function c() {}" [] in
  let program := [New; Call 0 (CallCatch c); Call 0 (CallAfter (VString "a"));
                  Call 0 (CallCatch (VString "c"))] in
  exec program [] = [mkGroup [] [VString "a"] [] []] /\
  catchers (mkGroup [] [VString "a"] [] []) = [].
Proof.
  intros c program. split; [reflexivity|].
  exact (proj1 (builder_installs_no_catcher program 0 _ eq_refl)).
Defined.

(** ** Paths that are no strings *)

(** X16: [addGroup] does not ask its path to be a string. An array
    passes on the strength of its own [indexOf]: it is accepted exactly
    when its first element is the string ["/"], and is stored as it is;
    in collection the prefix is then the array joined with commas. A
    boolean has no [indexOf] and ends the call in a [TypeError]. *)
Theorem addGroup_array_path :
  forall (h : heap) (this : loc) (g : Group) (elems : list value) (group : value),
    h !! this = Some g ->
    addGroup this (VArray elems) group h =
      (match elems with
       | VString "/" :: _ =>
           (<[this := with_item g (group_item (VArray elems) group)]> h,
            Return (VGroup this))
       | _ =>
           (h, Throw (GroupError "InvalidHandlerSpecificationError"
                        (VString "path must either be null or start with /")))
       end) /\
    (forall b, addGroup this (VBool b) group h =
               (h, Throw (TypeError (NotAFunction "path.indexOf")))) /\
    (forall rest props path,
       elems = VString "/" :: VString rest :: [] ->
       lookup_prop "path" props = VString path ->
       prefixed (group_item (VArray elems) group) (VObject props) =
       Return (VObject (set_prop "path" (VString ("/," +:+ rest +:+ path)) props))).
Proof.
  intros h this g elems group Hg. split; [|split].
  - unfold addGroup, addGroup_checked. simpl.
    rewrite bind_assoc, bind_lift, bind_ret. simpl.
    assert (forall i, (0 < i)%Z -> forall l,
              (Array_indexOf_from i l "/" =? 0)%Z = false) as Hlater.
    { intros i Hi l. revert i Hi. induction l as [|x l IH]; intros i Hi; simpl;
        [done|]. destruct (is_string x "/"); [lia|]. apply IH. lia. }
    destruct elems as [|[| | |s| | | |] rest]; simpl;
      rewrite ?Hlater by lia; simpl; try done.
    destruct (String.eqb s "/") eqn:E.
    + apply String.eqb_eq in E as ->. simpl. by rewrite (bind_modify _ _ _ _ _ Hg).
    + rewrite Hlater by lia. simpl.
      destruct s as [|a [|b s]]; try done;
        destruct a as [[] [] [] [] [] [] [] []]; try done.
  - intros b. unfold addGroup, addGroup_checked. simpl.
    by rewrite bind_assoc, bind_lift.
  - intros rest props path -> Hpath. unfold prefixed. simpl. by rewrite Hpath.
Qed.

Lemma addGroup_array_path_witness :
  let g := mkGroup [] [] [] [] in
  let path := VArray [VString "/"; VString "v1"] in
  addGroup 0 path (VGroup 1) [g; g] =
    ([with_item g (group_item path (VGroup 1)); g], Return (VGroup 0)) /\
  prefixed (group_item path (VGroup 1))
    (VObject [("path", VString "/leaf"); ("handlers", VArray [])]) =
  Return (VObject [("path", VString "/,v1/leaf"); ("handlers", VArray [])]).
Proof.
  intros g path.
  destruct (addGroup_array_path [g; g] 0 g [VString "/"; VString "v1"] (VGroup 1)
              eq_refl) as (Hadd & _ & Hprefix).
  split; [exact Hadd|].
  exact (Hprefix "v1" [("path", VString "/leaf"); ("handlers", VArray [])] "/leaf"
           eq_refl eq_refl).
Defined.
